(** * Verification of the league orchestration core (volo10/MCP)

    Shallow embedding of:
    - [RoundRobinScheduler.create_schedule], [get_num_rounds],
      [get_matches_per_round], [get_total_matches], [validate_schedule]
                                              (agents/league_manager/scheduler.py)
    - [LeagueHandlers.handle_start_league]    (agents/league_manager/handlers.py)
    - [EvenOddGame.get_parity], [determine_winner], [create_technical_loss],
      [validate_choice], [normalize_choice]   (agents/referee_REF02/game_logic.py)
    - [RefereeHandlers] invitation and choice steps, [_run_match_async]
                                              (agents/referee_REF01/handlers.py)
    - [RetryClient], [CircuitBreaker], [ResilientClient]
                                              (agents/player_P02/resilience.py) *)

From Stdlib Require Import Bool Arith Lia List Ascii String ZArith QArith Permutation.
From Stdlib Require Import Lqa Qpower SpecFloat.
Import ListNotations.
Open Scope string_scope.
Open Scope list_scope.
Open Scope nat_scope.

(* ================================================================== *)
(** ** Round-robin scheduler *)
(* ================================================================== *)

Module Scheduler.

Definition BYE : string := "BYE".

(** [players = [players[0]] + [players[-1]] + players[1:-1]].  The
    schedule only rotates lists of even length >= 2; the empty list, on
    which Python raises [IndexError], is never rotated. *)
Definition rotate (players : list string) : list string :=
  match players with
  | [] => []
  | p0 :: rest => p0 :: last players p0 :: removelast rest
  end.

(** Body of [for i in range(n // 2)]: pair [players[i]] with
    [players[n - 1 - i]], skipping pairings that involve ["BYE"]. *)
Definition match_at (players : list string) (n i : nat)
  : list (string * string) :=
  let player_a := nth i players "" in
  let player_b := nth (n - 1 - i) players "" in
  if negb (String.eqb player_a BYE) && negb (String.eqb player_b BYE)
  then [(player_a, player_b)] else [].

(** One round. *)
Definition round_matches (players : list string) (n : nat)
  : list (string * string) :=
  flat_map (match_at players n) (seq 0 (n / 2)).

(** The loop [for round_num in range(num_rounds)]: emit the round, then
    rotate. *)
Fixpoint rounds (fuel : nat) (players : list string) (n : nat)
  : list (list (string * string)) :=
  match fuel with
  | 0 => []
  | S f => round_matches players n :: rounds f (rotate players) n
  end.

Definition create_schedule (player_ids : list string)
  : list (list (string * string)) :=
  let n := List.length player_ids in
  if n <? 2 then []
  else
    let players := if Nat.odd n then player_ids ++ [BYE] else player_ids in
    let n := if Nat.odd n then n + 1 else n in
    rounds (n - 1) players n.

(** The whole schedule as one list of pairings. *)
Definition all_pairings (player_ids : list string) : list (string * string) :=
  List.concat (create_schedule player_ids).

(** Number of pairings of the schedule that pair [x] with [y] (either order). *)
Definition pair_count (x y : string) (l : list (string * string)) : nat :=
  List.length (filter (fun p => (String.eqb (fst p) x && String.eqb (snd p) y)
                        || (String.eqb (fst p) y && String.eqb (snd p) x)) l).

(** Number of pairings of the schedule in which [x] takes part. *)
Definition player_count (x : string) (l : list (string * string)) : nat :=
  List.length (filter (fun p => String.eqb (fst p) x || String.eqb (snd p) x) l).

Example create_schedule_4 :
  create_schedule ["P01"; "P02"; "P03"; "P04"] =
  [[("P01", "P04"); ("P02", "P03")];
   [("P01", "P03"); ("P04", "P02")];
   [("P01", "P02"); ("P03", "P04")]].
Proof. reflexivity. Qed.

Example create_schedule_3 :
  create_schedule ["P01"; "P02"; "P03"] =
  [[("P02", "P03")]; [("P01", "P03")]; [("P01", "P02")]].
Proof. reflexivity. Qed.

(** *** Index view of the circle method

    [q = p0 :: t] with [length t = k].  After [r <= k] rotations the fixed
    player [p0] is still in front and position [S j] holds [t[(j - r) mod k]],
    written [wrap k (j + k - r)]. *)

Definition wrap (k x : nat) : nat := if x <? k then x else x - k.

Definition idx (k r j : nat) : nat :=
  match j with
  | 0 => 0
  | S j' => S (wrap k (j' + k - r))
  end.

Ltac wrap_cases :=
  unfold wrap in *;
  repeat match goal with
         | |- context [?a <? ?b] => destruct (Nat.ltb_spec a b)
         | H : context [?a <? ?b] |- _ => destruct (Nat.ltb_spec a b)
         end.

Lemma map_nth_seq_self (t : list string) d :
  map (fun j => nth j t d) (seq 0 (List.length t)) = t.
Proof.
  induction t as [|a t IH]; [reflexivity|].
  simpl. f_equal. rewrite <- seq_shift, map_map. exact IH.
Qed.

Lemma nth_map_seq {A} (g : nat -> A) k j d :
  j < k -> nth j (map g (seq 0 k)) d = g j.
Proof.
  intros Hj. rewrite nth_indep with (d' := g 0) by (rewrite length_map, length_seq; lia).
  rewrite map_nth, seq_nth by lia. reflexivity.
Qed.

Lemma rotate_map p0 (f : nat -> string) k :
  1 <= k ->
  rotate (p0 :: map f (seq 0 k)) =
  p0 :: map (fun j => f (wrap k (j + k - 1))) (seq 0 k).
Proof.
  intros Hk. destruct k as [|k']; [lia|].
  assert (E : map f (seq 0 (S k')) = map f (seq 0 k') ++ [f k'])
    by (rewrite seq_S, map_app; reflexivity).
  rewrite E. unfold rotate.
  rewrite app_comm_cons, last_last, removelast_last.
  f_equal. simpl seq. simpl map. f_equal.
  - f_equal. wrap_cases; lia.
  - rewrite <- seq_shift, map_map. apply map_ext_in. intros j Hj.
    apply in_seq in Hj. f_equal. wrap_cases; lia.
Qed.

Lemma iter_rotate p0 (t : list string) r :
  1 <= List.length t -> r <= List.length t ->
  Nat.iter r rotate (p0 :: t) =
  p0 :: map (fun j => nth (wrap (List.length t) (j + List.length t - r)) t "")
            (seq 0 (List.length t)).
Proof.
  intros Hk. induction r as [|r IH]; intros Hr.
  - simpl Nat.iter. f_equal. rewrite <- (map_nth_seq_self t "") at 1.
    apply map_ext_in. intros j Hj. apply in_seq in Hj. f_equal. wrap_cases; lia.
  - change (Nat.iter (S r) rotate (p0 :: t))
      with (rotate (Nat.iter r rotate (p0 :: t))).
    rewrite IH by lia. rewrite rotate_map by lia. f_equal.
    apply map_ext_in. intros j Hj. apply in_seq in Hj. f_equal. wrap_cases; lia.
Qed.

Lemma nth_iter_rotate p0 (t : list string) r j :
  1 <= List.length t -> r <= List.length t -> j <= List.length t ->
  nth j (Nat.iter r rotate (p0 :: t)) "" = nth (idx (List.length t) r j) (p0 :: t) "".
Proof.
  intros Hk Hr Hj. rewrite iter_rotate by assumption.
  destruct j as [|j]; [reflexivity|].
  simpl. rewrite nth_map_seq by lia. reflexivity.
Qed.

(** Pairings of round [r] as positions in the initial list [q]. *)
Definition ipairs (k h r : nat) : list (nat * nat) :=
  map (fun i => (idx k r i, idx k r (k - i))) (seq 0 h).

(** All rounds [0 .. k-1]. *)
Definition IP (k h : nat) : list (nat * nat) :=
  List.concat (map (ipairs k h) (seq 0 k)).

Definition nmp (q : list string) (ab : nat * nat) : string * string :=
  (nth (fst ab) q "", nth (snd ab) q "").

Definition okp (p : string * string) : bool :=
  negb (String.eqb (fst p) BYE) && negb (String.eqb (snd p) BYE).

(** The list the loop works on: the identifiers, with ["BYE"] appended
    when their number is odd. *)
Definition padded (player_ids : list string) : list string :=
  if Nat.odd (List.length player_ids) then player_ids ++ [BYE] else player_ids.

Lemma round_matches_idx p0 t r l :
  1 <= List.length t -> r <= List.length t ->
  (forall i, In i l -> i <= List.length t) ->
  flat_map (match_at (Nat.iter r rotate (p0 :: t)) (S (List.length t))) l
  = filter okp (map (nmp (p0 :: t))
      (map (fun i => (idx (List.length t) r i,
                      idx (List.length t) r (List.length t - i))) l)).
Proof.
  intros Hk Hr. induction l as [|i l IH]; intros Hl; [reflexivity|].
  simpl flat_map. simpl map. simpl filter. unfold match_at at 1.
  replace (S (List.length t) - 1 - i) with (List.length t - i) by lia.
  rewrite !nth_iter_rotate by (try specialize (Hl i (or_introl eq_refl)); lia).
  unfold okp, nmp at 1. simpl fst. simpl snd.
  rewrite IH by (intros; apply Hl; right; assumption).
  destruct (_ && _); reflexivity.
Qed.

Lemma rounds_iter q n f r :
  rounds f (Nat.iter r rotate q) n =
  map (fun r' => round_matches (Nat.iter r' rotate q) n) (seq r f).
Proof.
  revert r. induction f as [|f IH]; intros r; [reflexivity|].
  simpl rounds. change (rotate (Nat.iter r rotate q)) with (Nat.iter (S r) rotate q).
  rewrite IH. reflexivity.
Qed.

Lemma concat_filter_map {A B} (P : B -> bool) (g : A -> B) (F : nat -> list A) l :
  List.concat (map (fun r => filter P (map g (F r))) l) =
  filter P (map g (List.concat (map F l))).
Proof.
  induction l as [|r l IH]; [reflexivity|].
  simpl. rewrite IH, map_app, filter_app. reflexivity.
Qed.

Lemma length_padded ids :
  List.length (padded ids) =
  if Nat.odd (List.length ids) then List.length ids + 1 else List.length ids.
Proof.
  unfold padded. destruct (Nat.odd _); [rewrite length_app|]; reflexivity.
Qed.

Lemma all_pairings_idx ids :
  2 <= List.length ids ->
  all_pairings ids =
  filter okp (map (nmp (padded ids))
    (IP (List.length (padded ids) - 1) (List.length (padded ids) / 2))).
Proof.
  intros H2. unfold all_pairings, create_schedule.
  destruct (Nat.ltb_spec (List.length ids) 2); [lia|].
  fold (padded ids). rewrite <- length_padded.
  assert (Hm : 2 <= List.length (padded ids))
    by (rewrite length_padded; destruct (Nat.odd _); lia).
  destruct (padded ids) as [|p0 t] eqn:Eq; [simpl in Hm; lia|].
  simpl List.length in *. replace (S (List.length t) - 1) with (List.length t) by lia.
  pose proof (rounds_iter (p0 :: t) (S (List.length t)) (List.length t) 0) as R.
  change (Nat.iter 0 rotate (p0 :: t)) with (p0 :: t) in R. rewrite R. unfold IP. rewrite <- concat_filter_map. f_equal.
  apply map_ext_in. intros r Hr. apply in_seq in Hr.
  unfold round_matches. apply round_matches_idx; try lia.
  intros i Hi. apply in_seq in Hi.
  pose proof (Nat.Div0.mul_div_le (S (List.length t)) 2). lia.
Qed.

(** *** Every unordered pair of positions is met exactly once *)

Definition normp (ab : nat * nat) : nat * nat :=
  (Nat.min (fst ab) (snd ab), Nat.max (fst ab) (snd ab)).

(** The unordered pairs [a < b < m], as normalised pairs. *)
Fixpoint allpairs (m : nat) : list (nat * nat) :=
  match m with
  | 0 => []
  | S m' => allpairs m' ++ map (fun a => (a, m')) (seq 0 m')
  end.

Lemma In_allpairs m a b : In (a, b) (allpairs m) <-> a < b < m.
Proof.
  induction m as [|m IH]; simpl; [lia|].
  rewrite in_app_iff, IH, in_map_iff. split.
  - intros [H|[x [Ex Hx]]]; [lia|]. injection Ex as -> ->. apply in_seq in Hx. lia.
  - intros H. destruct (Nat.eq_dec b m) as [->|Hb]; [right|left; lia].
    exists a. split; [reflexivity|]. apply in_seq. lia.
Qed.

Lemma NoDup_map_on {A B} (f : A -> B) l :
  NoDup l -> (forall x y, In x l -> In y l -> f x = f y -> x = y) ->
  NoDup (map f l).
Proof.
  induction 1 as [|x l Hx Hl IH]; intros Hf; simpl; constructor.
  - intros Hin. apply in_map_iff in Hin as [y [Ey Hy]].
    apply Hf in Ey; [subst; contradiction|right; assumption|left; reflexivity].
  - apply IH. intros; apply Hf; [right|right|]; assumption.
Qed.

Lemma NoDup_allpairs m : NoDup (allpairs m).
Proof.
  induction m as [|m IH]; simpl; [constructor|].
  apply NoDup_app; [exact IH| |].
  - apply NoDup_map_on; [apply seq_NoDup|]. intros x y _ _ E. injection E. auto.
  - intros [a b] H1 H2. apply In_allpairs in H1.
    apply in_map_iff in H2 as [x [Ex _]]. injection Ex. lia.
Qed.

Lemma length_allpairs m : 2 * List.length (allpairs m) = m * (m - 1).
Proof.
  induction m as [|m IH]; [reflexivity|].
  simpl allpairs. rewrite length_app, length_map, length_seq.
  destruct m; simpl in *; nia.
Qed.

Lemma NoDup_grid {A} (H : nat -> nat -> A) lr li :
  NoDup lr -> NoDup li ->
  (forall r i r' i', In r lr -> In i li -> In r' lr -> In i' li ->
     H r i = H r' i' -> r = r' /\ i = i') ->
  NoDup (List.concat (map (fun r => map (H r) li) lr)).
Proof.
  intros Hr. revert li. induction Hr as [|r lr Hr Hlr IH]; intros li Hi Hinj;
    simpl; [constructor|].
  apply NoDup_app.
  - apply NoDup_map_on; [assumption|]. intros i i' Hin Hin' E.
    apply (Hinj r i r i'); simpl; auto.
  - apply IH; [assumption|]. intros; apply Hinj; simpl; auto.
  - intros x H1 H2. apply in_map_iff in H1 as [i [Ei Hi1]].
    apply in_concat in H2 as [l [Hl Hx]]. apply in_map_iff in Hl as [r' [<- Hr']].
    apply in_map_iff in Hx as [i' [Ei' Hi2]]. subst x.
    destruct (Hinj r i r' i') as [-> _]; simpl; auto.
Qed.

Lemma length_grid {A} (H : nat -> nat -> A) lr li :
  List.length (List.concat (map (fun r => map (H r) li) lr))
  = List.length lr * List.length li.
Proof.
  induction lr as [|r lr IH]; [reflexivity|].
  simpl. rewrite length_app, length_map, IH. reflexivity.
Qed.

Lemma idx_pos k r j : 1 <= j -> idx k r j = S (wrap k (j - 1 + k - r)).
Proof. intros Hj. destruct j; [lia|]. simpl. do 3 f_equal. lia. Qed.

Lemma wrap_eq k x y :
  x < 2 * k -> y < 2 * k -> wrap k x = wrap k y -> x = y \/ x = y + k \/ y = x + k.
Proof. unfold wrap. destruct (Nat.ltb_spec x k), (Nat.ltb_spec y k); lia. Qed.

Lemma wrap_lt k x : x < 2 * k -> wrap k x < k.
Proof. unfold wrap. destruct (Nat.ltb_spec x k); lia. Qed.

Lemma normp_eq a b c d :
  normp (a, b) = normp (c, d) -> (a = c /\ b = d) \/ (a = d /\ b = c).
Proof. unfold normp; simpl. intros E; injection E; lia. Qed.

Section Circle.
Variables h k : nat.
Hypothesis Hh : 1 <= h.
Hypothesis Hhk : k + 1 = 2 * h.

Lemma idx_pair_inj r i r' i' :
    r < k -> i < h -> r' < k -> i' < h ->
    normp (idx k r i, idx k r (k - i)) = normp (idx k r' i', idx k r' (k - i')) ->
    r = r' /\ i = i'.
  Proof.
    intros Hr Hi Hr' Hi' E. apply normp_eq in E.
    rewrite (idx_pos k r (k - i)), (idx_pos k r' (k - i')) in E by lia.
    destruct i as [|i]; destruct i' as [|i']; simpl idx in E.
    - destruct E as [[_ E]|[E _]]; [|discriminate].
      injection E as E. apply wrap_eq in E; lia.
    - destruct E as [[E _]|[E _]]; discriminate.
    - destruct E as [[E _]|[_ E]]; discriminate.
    - destruct E as [[E1 E2]|[E1 E2]]; injection E1 as E1; injection E2 as E2;
        apply wrap_eq in E1; try lia; apply wrap_eq in E2; lia.
  Qed.

Lemma idx_pair_valid r i :
    r < k -> i < h ->
    idx k r i <> idx k r (k - i) /\ idx k r i < k + 1 /\ idx k r (k - i) < k + 1.
  Proof.
    intros Hr Hi. rewrite (idx_pos k r (k - i)) by lia.
    pose proof (wrap_lt k (k - i - 1 + k - r) ltac:(lia)).
    destruct i as [|i]; simpl idx; [lia|].
    pose proof (wrap_lt k (i + k - r) ltac:(lia)).
    split; [|lia]. intros E. injection E as E. apply wrap_eq in E; lia.
  Qed.

Lemma IP_normp_perm : Permutation (map normp (IP k h)) (allpairs (k + 1)).
  Proof.
    assert (E : map normp (IP k h) =
      List.concat (map (fun r => map (fun i => normp (idx k r i, idx k r (k - i)))
                                     (seq 0 h)) (seq 0 k))).
    { unfold IP, ipairs. rewrite concat_map, map_map. f_equal.
      apply map_ext. intros r. rewrite map_map. reflexivity. }
    rewrite E. apply NoDup_Permutation_bis.
    - apply NoDup_grid; try apply seq_NoDup.
      intros r i r' i' Hr Hi Hr' Hi'. apply in_seq in Hr, Hi, Hr', Hi'.
      apply idx_pair_inj; lia.
    - rewrite length_grid, !length_seq.
      pose proof (length_allpairs (k + 1)). nia.
    - intros [a b] Hab. apply in_concat in Hab as [l [Hl Hx]].
      apply in_map_iff in Hl as [r [<- Hr]]. apply in_map_iff in Hx as [i [Ei Hi]].
      apply in_seq in Hr, Hi. apply In_allpairs. unfold normp in Ei.
      injection Ei as <- <-. simpl.
      destruct (idx_pair_valid r i) as (? & ? & ?); lia.
  Qed.

Lemma IP_valid a b :
    In (a, b) (IP k h) -> a <> b /\ a < k + 1 /\ b < k + 1.
  Proof.
    unfold IP, ipairs. intros Hab. apply in_concat in Hab as [l [Hl Hx]].
    apply in_map_iff in Hl as [r [<- Hr]]. apply in_map_iff in Hx as [i [Ei Hi]].
    apply in_seq in Hr, Hi. injection Ei as <- <-. apply idx_pair_valid; lia.
  Qed.

End Circle.

(** *** Counting over the unordered pairs *)

Lemma count_perm {A} (f : A -> bool) l l' :
  Permutation l l' -> List.length (filter f l) = List.length (filter f l').
Proof.
  induction 1; simpl; try (destruct (f _)); try (destruct (f _)); simpl; lia.
Qed.

Lemma count_normp (F : nat * nat -> bool) l :
  (forall a b, F (a, b) = F (b, a)) ->
  List.length (filter F l) = List.length (filter F (map normp l)).
Proof.
  intros HF. induction l as [|[a b] l IH]; [reflexivity|].
  simpl. replace (F (normp (a, b))) with (F (a, b)).
  - destruct (F (a, b)); simpl; rewrite IH; reflexivity.
  - unfold normp; simpl. destruct (Nat.le_ge_cases a b).
    + rewrite Nat.min_l, Nat.max_r by assumption. reflexivity.
    + rewrite Nat.min_r, Nat.max_l by assumption. apply HF.
Qed.

Lemma length_filter_map {A B} (f : B -> bool) (g : A -> B) l :
  List.length (filter f (map g l)) = List.length (filter (fun x => f (g x)) l).
Proof.
  induction l as [|x l IH]; [reflexivity|]. simpl. destruct (f (g x)); simpl; lia.
Qed.

Lemma length_filter_filter {A} (f g : A -> bool) l :
  List.length (filter f (filter g l)) = List.length (filter (fun x => g x && f x) l).
Proof.
  induction l as [|x l IH]; [reflexivity|]. simpl.
  destruct (g x); simpl; [destruct (f x); simpl|]; lia.
Qed.

Lemma filter_none {A} (f : A -> bool) l :
  (forall x, In x l -> f x = false) -> filter f l = [].
Proof.
  induction l as [|x l IH]; intros H; [reflexivity|]. simpl.
  rewrite H by (left; reflexivity). apply IH. intros; apply H; right; assumption.
Qed.

Lemma filter_allpairs_lt n m :
  n <= m -> filter (fun ab => snd ab <? n) (allpairs m) = allpairs n.
Proof.
  induction m as [|m IH]; intros Hnm.
  - replace n with 0 by lia. reflexivity.
  - destruct (Nat.eq_dec n (S m)) as [->|Hn].
    + apply forallb_filter_id, forallb_forall. intros [a b] Hab.
      apply In_allpairs in Hab. simpl. apply Nat.ltb_lt. lia.
    + simpl allpairs. rewrite filter_app, IH by lia.
      rewrite filter_none; [apply app_nil_r|].
      intros [a b] Hab. apply in_map_iff in Hab as [x [Ex _]].
      injection Ex as <- <-. simpl. apply Nat.ltb_ge. lia.
Qed.

Lemma count_seq_eq ix m :
  List.length (filter (fun a => a =? ix) (seq 0 m)) = if ix <? m then 1 else 0.
Proof.
  induction m as [|m IH]; [reflexivity|].
  rewrite seq_S, filter_app, length_app, IH. simpl.
  destruct (Nat.ltb_spec ix m), (Nat.ltb_spec ix (S m)), (Nat.eqb_spec m ix); simpl; lia.
Qed.

Lemma count_member ix n :
  List.length (filter (fun ab => (fst ab =? ix) || (snd ab =? ix)) (allpairs n)) =
  if ix <? n then n - 1 else 0.
Proof.
  induction n as [|n IH]; [reflexivity|].
  simpl allpairs. rewrite filter_app, length_app, IH, length_filter_map. simpl.
  destruct (Nat.eqb_spec n ix) as [->|Hn].
  - erewrite filter_ext_in with (g := fun _ => true)
      by (intros; apply orb_true_r).
    rewrite filter_true, length_seq, Nat.ltb_irrefl.
    destruct (Nat.ltb_spec ix (S ix)); lia.
  - erewrite filter_ext_in with (g := fun a => a =? ix)
      by (intros; apply orb_false_r).
    rewrite count_seq_eq.
    destruct (Nat.ltb_spec ix n), (Nat.ltb_spec ix (S n)); lia.
Qed.

Lemma count_one (l : list (nat * nat)) z :
  NoDup l -> In z l ->
  List.length (filter (fun p => (fst p =? fst z) && (snd p =? snd z)) l) = 1.
Proof.
  intros Hl. induction Hl as [|x l Hx Hl IH]; [contradiction|]. intros [<-|Hz]; simpl.
  - rewrite !Nat.eqb_refl. simpl. f_equal.
    rewrite filter_none; [reflexivity|].
    intros y Hy. destruct (Nat.eqb_spec (fst y) (fst x)), (Nat.eqb_spec (snd y) (snd x));
      simpl; try reflexivity.
    destruct x, y; simpl in *; subst; contradiction.
  - destruct (Nat.eqb_spec (fst x) (fst z)), (Nat.eqb_spec (snd x) (snd z)); simpl;
      try exact (IH Hz).
    destruct x, z; simpl in *; subst; contradiction.
Qed.

(** *** From positions back to identifiers *)

Section Names.
Variable ids : list string.
Hypothesis Hlen : 2 <= List.length ids.
Hypothesis Hnd : NoDup ids.
Hypothesis Hbye : ~ In BYE ids.

Let n := List.length ids.
Let q := padded ids.
Let m := List.length (padded ids).

Lemma padded_even : exists p, m = 2 * p /\ 1 <= p.
  Proof.
    unfold m. rewrite length_padded. fold n.
    destruct (Nat.odd n) eqn:Eo.
    - apply Nat.odd_spec in Eo as [p ->]. exists (p + 1). lia.
    - assert (Ee : Nat.even n = true) by (rewrite <- Nat.negb_odd, Eo; reflexivity).
      apply Nat.even_spec in Ee as [p Ep]. exists p. lia.
  Qed.

Lemma m_bounds : n <= m /\ m <= n + 1.
  Proof. unfold m. rewrite length_padded. fold n. destruct (Nat.odd n); lia. Qed.

Lemma nth_padded_lt a : a < n -> nth a q "" = nth a ids "".
  Proof.
    intros Ha. unfold q, padded. destruct (Nat.odd _); [|reflexivity].
    apply app_nth1. assumption.
  Qed.

Lemma nth_padded_bye a : n <= a -> a < m -> nth a q "" = BYE.
  Proof.
    intros H1 H2. unfold m in H2. rewrite length_padded in H2. fold n in H2.
    unfold q, padded. fold n. destruct (Nat.odd n); [|lia].
    rewrite app_nth2 by (fold n; lia). replace (a - List.length ids) with 0 by (fold n; lia).
    reflexivity.
  Qed.

Lemma nth_ids_not_bye a : a < n -> nth a ids "" <> BYE.
  Proof. intros Ha E. apply Hbye. rewrite <- E. apply nth_In. assumption. Qed.

Lemma okp_nmp a b :
    a < b -> b < m -> okp (nmp q (a, b)) = (b <? n).
  Proof.
    intros Hab Hb. unfold okp, nmp. simpl fst. simpl snd.
    destruct (Nat.ltb_spec b n).
    - rewrite !nth_padded_lt by lia.
      destruct (String.eqb_spec (nth a ids "") BYE) as [E|_];
        [exfalso; apply (nth_ids_not_bye a); [lia|assumption]|].
      destruct (String.eqb_spec (nth b ids "") BYE) as [E|_];
        [exfalso; apply (nth_ids_not_bye b); assumption|].
      reflexivity.
    - rewrite (nth_padded_bye b) by lia. rewrite String.eqb_refl, andb_false_r.
      reflexivity.
  Qed.

  (** Counting pairings of the schedule with a symmetric property [F]
      amounts to counting the unordered pairs of positions [a < b < n]
      whose identifiers have it. *)
Lemma count_transport (F : string * string -> bool) :
    (forall x y, F (x, y) = F (y, x)) ->
    List.length (filter F (all_pairings ids)) =
    List.length (filter (fun ab => F (nmp ids ab)) (allpairs n)).
  Proof.
    intros HF. destruct padded_even as [h [Hm Hh]].
    rewrite all_pairings_idx by assumption. fold m q.
    rewrite length_filter_filter, length_filter_map.
    rewrite count_normp.
    2: { intros a b. unfold nmp, okp; simpl. rewrite HF. f_equal. apply andb_comm. }
    replace (m / 2) with h by (rewrite Hm, Nat.mul_comm, Nat.div_mul; lia).
    rewrite (count_perm _ _ _ (IP_normp_perm h (m - 1) Hh ltac:(lia))).
    replace (m - 1 + 1) with m by lia.
    rewrite (filter_ext_in _ (fun ab => (snd ab <? n) && F (nmp ids ab))).
    - rewrite <- length_filter_filter, filter_allpairs_lt by (pose proof m_bounds; lia).
      reflexivity.
    - intros [a b] Hab. apply In_allpairs in Hab. rewrite okp_nmp by lia. simpl snd.
      destruct (Nat.ltb_spec b n); [|reflexivity].
      unfold nmp; simpl. rewrite !nth_padded_lt by lia. reflexivity.
  Qed.

Lemma eqb_nth a b :
    a < n -> b < n -> String.eqb (nth a ids "") (nth b ids "") = (a =? b).
  Proof.
    intros Ha Hb. destruct (String.eqb_spec (nth a ids "") (nth b ids "")) as [E|E],
      (Nat.eqb_spec a b) as [->|Hab]; try reflexivity.
    - exfalso. apply Hab. eapply NoDup_nth; eauto.
    - contradiction.
  Qed.

Lemma in_all_pairings p :
    In p (all_pairings ids) ->
    exists a b, a <> b /\ a < n /\ b < n /\ p = nmp ids (a, b).
  Proof.
    destruct padded_even as [h [Hm Hh]].
    rewrite all_pairings_idx by assumption. fold m q.
    intros Hp. apply filter_In in Hp as [Hp Hok].
    apply in_map_iff in Hp as [[a b] [<- Hab]].
    replace (m / 2) with h in Hab by (rewrite Hm, Nat.mul_comm, Nat.div_mul; lia).
    apply (IP_valid h (m - 1) Hh ltac:(lia)) in Hab as (Hne & Ha & Hb).
    pose proof m_bounds.
    assert (Hlt : forall c, c < m -> nth c q "" <> BYE -> c < n).
    { intros c Hc Hbye'. destruct (Nat.ltb_spec c n); [assumption|].
      exfalso. apply Hbye'. apply nth_padded_bye; lia. }
    unfold okp, nmp in Hok. simpl in Hok.
    apply andb_prop in Hok as [Ha' Hb'].
    apply negb_true_iff, String.eqb_neq in Ha', Hb'.
    apply Hlt in Ha'; [|lia]. apply Hlt in Hb'; [|lia].
    exists a, b. repeat split; try assumption.
    unfold nmp; simpl. rewrite !nth_padded_lt by assumption. reflexivity.
  Qed.

End Names.

Ltac destruct_eqb :=
  repeat match goal with |- context [String.eqb ?a ?b] => destruct (String.eqb a b) end.

Lemma length_allpairs_div n : List.length (allpairs n) = n * (n - 1) / 2.
Proof.
  pose proof (length_allpairs n). rewrite <- H, Nat.mul_comm, Nat.div_mul; lia.
Qed.

(** C1 (corrected). The claim fails for identifiers containing the
    placeholder ["BYE"]: [create_schedule ["BYE"; "P01"]] has no pairing at
    all, although the two identifiers are distinct. *)
Lemma create_schedule_bye_counterexample :
  let ids := ["BYE"; "P01"] in
  NoDup ids /\ 2 <= List.length ids /\
  create_schedule ids = [[]] /\
  List.length (all_pairings ids) = 0 /\
  pair_count "BYE" "P01" (all_pairings ids) = 0 /\
  player_count "P01" (all_pairings ids) = 0.
Proof.
  split; [repeat constructor; simpl; intuition discriminate|].
  split; [simpl; lia|].
  repeat split; reflexivity.
Qed.

(** C1 (as amended). For every list of [n >= 2] distinct identifiers none
    of which is the placeholder ["BYE"], the schedule of
    [create_schedule] has [n (n - 1) / 2] pairings in total; every
    unordered pair of distinct participants is paired exactly once; every
    pairing pairs two different participants of the list; and every
    participant takes part in exactly [n - 1] pairings. *)
Theorem create_schedule_complete (player_ids : list string) :
  2 <= List.length player_ids -> NoDup player_ids -> ~ In "BYE" player_ids ->
  let n := List.length player_ids in
  let S := all_pairings player_ids in
  List.length S = n * (n - 1) / 2 /\
  (forall x y, In x player_ids -> In y player_ids -> x <> y -> pair_count x y S = 1) /\
  (forall p, In p S -> fst p <> snd p /\ In (fst p) player_ids /\ In (snd p) player_ids) /\
  (forall x, In x player_ids -> player_count x S = n - 1).
Proof.
  intros H2 Hnd Hbye n S. subst n S.
  split; [|split; [|split]].
  - rewrite <- (filter_true (all_pairings player_ids)).
    rewrite count_transport by first [assumption | reflexivity].
    rewrite filter_true. apply length_allpairs_div.
  - intros x y Hx Hy Hxy.
    apply (In_nth _ _ "") in Hx as [ix [Hix <-]].
    apply (In_nth _ _ "") in Hy as [iy [Hiy <-]].
    assert (ix <> iy) by (intros ->; contradiction).
    unfold pair_count.
    rewrite count_transport
      by first [assumption | (intros; simpl; destruct_eqb; reflexivity)].
    rewrite (filter_ext_in _ (fun p => (fst p =? fst (Nat.min ix iy, Nat.max ix iy))
                                     && (snd p =? snd (Nat.min ix iy, Nat.max ix iy)))).
    + apply count_one; [apply NoDup_allpairs|]. apply In_allpairs. lia.
    + intros [a b] Hab. apply In_allpairs in Hab. unfold nmp. simpl.
      rewrite !eqb_nth by (try assumption; lia).
      destruct (Nat.eqb_spec a ix), (Nat.eqb_spec b iy), (Nat.eqb_spec a iy),
        (Nat.eqb_spec b ix), (Nat.eqb_spec a (Nat.min ix iy)),
        (Nat.eqb_spec b (Nat.max ix iy)); simpl; lia.
  - intros p Hp. apply in_all_pairings in Hp as (a & b & Hab & Ha & Hb & ->);
      try assumption.
    unfold nmp; simpl. split; [|split; apply nth_In; assumption].
    rewrite <- String.eqb_neq, eqb_nth by assumption.
    apply Nat.eqb_neq. assumption.
  - intros x Hx. apply (In_nth _ _ "") in Hx as [ix [Hix <-]].
    unfold player_count.
    rewrite count_transport
      by first [assumption | (intros; simpl; apply orb_comm)].
    rewrite (filter_ext_in _ (fun ab => (fst ab =? ix) || (snd ab =? ix))).
    + rewrite count_member. destruct (Nat.ltb_spec ix (List.length player_ids)); lia.
    + intros [a b] Hab. apply In_allpairs in Hab. unfold nmp. simpl.
      rewrite !eqb_nth by (try assumption; lia). reflexivity.
Qed.

(** Witness: the theorem applied to four players. *)
Lemma create_schedule_complete_witness :
  2 <= List.length ["P01"; "P02"; "P03"; "P04"] /\
  NoDup ["P01"; "P02"; "P03"; "P04"] /\ ~ In "BYE" ["P01"; "P02"; "P03"; "P04"] /\
  List.length (all_pairings ["P01"; "P02"; "P03"; "P04"]) = 4 * 3 / 2.
Proof.
  assert (H1 : 2 <= List.length ["P01"; "P02"; "P03"; "P04"]) by (simpl; lia).
  assert (H2 : NoDup ["P01"; "P02"; "P03"; "P04"])
    by (repeat constructor; simpl; intuition discriminate).
  assert (H3 : ~ In "BYE" ["P01"; "P02"; "P03"; "P04"])
    by (simpl; intuition discriminate).
  split; [exact H1|]. split; [exact H2|]. split; [exact H3|].
  exact (proj1 (create_schedule_complete _ H1 H2 H3)).
Defined.

End Scheduler.

(* ================================================================== *)
(** ** Rounds of the schedule, and [get_num_rounds] /
       [get_matches_per_round] (agents/league_manager/scheduler.py) *)
(* ================================================================== *)

Module Rounds.
Import Scheduler.

(** [get_num_rounds]; Python integers. *)
Definition get_num_rounds (num_players : Z) : Z :=
  if Z.eqb (Z.modulo num_players 2) 0 then (num_players - 1)%Z else num_players.

(** [get_matches_per_round]: [num_players // 2]. *)
Definition get_matches_per_round (num_players : Z) : Z := Z.div num_players 2.

(** The participants named by a list of pairings, in order. *)
Definition names (R : list (string * string)) : list string :=
  flat_map (fun p => [fst p; snd p]) R.

(** The positions named by a list of position pairs. *)
Definition flatp (L : list (nat * nat)) : list nat :=
  flat_map (fun p => [fst p; snd p]) L.

Definition count_bye (l : list string) : nat :=
  List.length (filter (fun x => String.eqb x BYE) l).

Lemma rounds_length f q n : List.length (rounds f q n) = f.
Proof.
  revert q. induction f as [|f IH]; intros q; [reflexivity|]. simpl. rewrite IH. reflexivity.
Qed.

Lemma rounds_view p0 t h :
  List.length t + 1 = 2 * h -> 1 <= h ->
  rounds (List.length t) (p0 :: t) (S (List.length t)) =
  map (fun r => filter okp (map (nmp (p0 :: t)) (ipairs (List.length t) h r)))
      (seq 0 (List.length t)).
Proof.
  intros Hh H1.
  pose proof (rounds_iter (p0 :: t) (S (List.length t)) (List.length t) 0) as R.
  change (Nat.iter 0 rotate (p0 :: t)) with (p0 :: t) in R. rewrite R.
  apply map_ext_in. intros r Hr. apply in_seq in Hr.
  unfold round_matches, ipairs.
  replace (S (List.length t) / 2) with h
    by (replace (S (List.length t)) with (h * 2) by lia; rewrite Nat.div_mul; lia).
  apply round_matches_idx; try lia.
  intros i Hi. apply in_seq in Hi. lia.
Qed.

Lemma create_schedule_view ids :
  2 <= List.length ids ->
  exists h, List.length (padded ids) = 2 * h /\ 1 <= h /\
    create_schedule ids =
    map (fun r => filter okp (map (nmp (padded ids)) (ipairs (2 * h - 1) h r)))
        (seq 0 (2 * h - 1)).
Proof.
  intros H2.
  assert (Hev : exists h, List.length (padded ids) = 2 * h /\ 1 <= h).
  { rewrite length_padded. destruct (Nat.odd (List.length ids)) eqn:Eo.
    - apply Nat.odd_spec in Eo as [p Ep]. exists (p + 1). lia.
    - assert (Ee : Nat.even (List.length ids) = true)
        by (rewrite <- Nat.negb_odd, Eo; reflexivity).
      apply Nat.even_spec in Ee as [p Ep]. exists p. lia. }
  destruct Hev as [h [Hm Hh]]. exists h. split; [exact Hm|]. split; [exact Hh|].
  unfold create_schedule.
  destruct (Nat.ltb_spec (List.length ids) 2); [lia|].
  fold (padded ids). rewrite <- length_padded, Hm.
  destruct (padded ids) as [|p0 t] eqn:Eq; [simpl in Hm; lia|].
  simpl List.length in Hm.
  replace (2 * h - 1) with (List.length t) by lia.
  replace (2 * h) with (S (List.length t)) by lia.
  apply rounds_view; lia.
Qed.

Lemma idx_inj k r a b :
  r <= k -> a <= k -> b <= k -> idx k r a = idx k r b -> a = b.
Proof.
  intros Hr Ha Hb E. destruct a as [|a]; destruct b as [|b]; simpl in E;
    try reflexivity; try discriminate.
  injection E as E. apply wrap_eq in E; lia.
Qed.

Lemma idx_lt k r j : 1 <= k -> r <= k -> j <= k -> idx k r j < k + 1.
Proof.
  intros Hk Hr Hj. destruct j as [|j]; simpl; [lia|].
  pose proof (wrap_lt k (j + k - r) ltac:(lia)). lia.
Qed.

Lemma NoDup_flat2 (f g : nat -> nat) (l : list nat) :
  NoDup l ->
  (forall i j, In i l -> In j l -> f i = f j -> i = j) ->
  (forall i j, In i l -> In j l -> g i = g j -> i = j) ->
  (forall i j, In i l -> In j l -> f i <> g j) ->
  NoDup (flat_map (fun i => [f i; g i]) l).
Proof.
  induction 1 as [|i l Hi Hl IH]; intros Hf Hg Hfg; simpl; [constructor|].
  assert (Hrest : forall x, In x (flat_map (fun i => [f i; g i]) l) ->
            exists j, In j l /\ (x = f j \/ x = g j)).
  { intros x Hx. apply in_flat_map in Hx as [j [Hj Hx]]. exists j.
    split; [exact Hj|]. simpl in Hx. intuition. }
  constructor.
  - intros [E|Hx].
    + apply (Hfg i i); simpl; auto.
    + apply Hrest in Hx as [j [Hj [E|E]]].
      * apply Hi. rewrite (Hf i j); simpl; auto.
      * apply (Hfg i j); simpl; auto.
  - constructor.
    + intros Hx. apply Hrest in Hx as [j [Hj [E|E]]].
      * apply (Hfg j i); simpl; auto.
      * apply Hi. rewrite (Hg i j); simpl; auto.
    + apply IH; intros; [apply Hf|apply Hg|apply Hfg]; simpl; auto.
Qed.

Lemma flatp_ipairs k h r :
  flatp (ipairs k h r) = flat_map (fun i => [idx k r i; idx k r (k - i)]) (seq 0 h).
Proof.
  unfold flatp, ipairs. generalize (seq 0 h) as l.
  induction l as [|i l IH]; [reflexivity|]. simpl. rewrite IH. reflexivity.
Qed.

Lemma length_flat2 {A B} (f : A -> list B) (l : list A) :
  (forall x, List.length (f x) = 2) ->
  List.length (flat_map f l) = 2 * List.length l.
Proof.
  intros Hf. induction l as [|x l IH]; [reflexivity|].
  simpl. rewrite length_app, Hf, IH. lia.
Qed.

(** The positions of one round cover each seat of the circle once. *)
Lemma round_positions_perm h r :
  1 <= h -> r < 2 * h - 1 ->
  Permutation (flatp (ipairs (2 * h - 1) h r)) (seq 0 (2 * h)).
Proof.
  intros Hh Hr. set (k := 2 * h - 1).
  rewrite flatp_ipairs. apply NoDup_Permutation_bis.
  - apply NoDup_flat2; [apply seq_NoDup| | |];
      intros i j Hi Hj; apply in_seq in Hi, Hj.
    + intros E. apply idx_inj in E; unfold k in *; lia.
    + intros E. apply idx_inj in E; unfold k in *; lia.
    + intros E. apply idx_inj in E; unfold k in *; lia.
  - rewrite length_flat2 by reflexivity. rewrite !length_seq. lia.
  - intros x Hx. apply in_flat_map in Hx as [i [Hi Hx]]. apply in_seq in Hi.
    apply in_seq. simpl in Hx.
    destruct Hx as [<-|[<-|[]]]; (split; [lia|]);
      (eapply Nat.lt_le_trans; [apply idx_lt; unfold k in *; lia|]); unfold k; lia.
Qed.

Lemma names_nmp q L : names (map (nmp q) L) = map (fun j => nth j q "") (flatp L).
Proof.
  induction L as [|[a b] L IH]; [reflexivity|]. simpl. rewrite IH. reflexivity.
Qed.

Lemma In_names_filter (M : list (string * string)) x :
  In x (names (filter okp M)) -> In x (names M) /\ x <> BYE.
Proof.
  induction M as [|[a b] M IH]; simpl; [tauto|].
  unfold okp at 1. simpl.
  destruct (String.eqb_spec a BYE), (String.eqb_spec b BYE); simpl;
    try (intros Hx; apply IH in Hx; tauto).
  intros [<-|[<-|Hx]]; [tauto|tauto|]. apply IH in Hx. tauto.
Qed.

Lemma NoDup_names_filter (M : list (string * string)) :
  NoDup (names M) -> NoDup (names (filter okp M)).
Proof.
  induction M as [|[a b] M IH]; simpl; [auto|]. intros H.
  inversion H as [|? ? Ha H']. inversion H' as [|? ? Hb H''].
  destruct (okp (a, b)); simpl; [|apply IH; exact H''].
  constructor; [|constructor].
  - intros [E|Hx]; [subst; simpl in Ha; tauto|].
    apply In_names_filter in Hx. simpl in Ha. tauto.
  - intros Hx. apply In_names_filter in Hx. tauto.
  - apply IH. exact H''.
Qed.

Lemma kept_plus_bye (M : list (string * string)) :
  NoDup (names M) ->
  List.length (filter okp M) + count_bye (names M) = List.length M.
Proof.
  unfold count_bye.
  induction M as [|[a b] M IH]; simpl; [reflexivity|]. intros H.
  inversion H as [|? ? Ha H']. inversion H' as [|? ? Hb H''].
  specialize (IH H''). unfold okp at 1; simpl.
  destruct (String.eqb_spec a BYE), (String.eqb_spec b BYE); simpl.
  - subst. simpl in Ha. tauto.
  - lia.
  - lia.
  - lia.
Qed.

Lemma NoDup_padded ids :
  NoDup ids -> ~ In BYE ids -> NoDup (padded ids).
Proof.
  intros Hnd Hb. unfold padded. destruct (Nat.odd _); [|exact Hnd].
  apply NoDup_app; [exact Hnd|repeat constructor; simpl; tauto|].
  intros x Hx [<-|[]]. contradiction.
Qed.

Lemma count_bye_padded ids :
  ~ In BYE ids -> count_bye (padded ids) = if Nat.odd (List.length ids) then 1 else 0.
Proof.
  intros Hb. unfold count_bye, padded.
  assert (H0 : filter (fun x => String.eqb x BYE) ids = []).
  { apply filter_none. intros x Hx. apply String.eqb_neq. intros ->. contradiction. }
  destruct (Nat.odd _); [rewrite filter_app, length_app, H0|rewrite H0]; reflexivity.
Qed.

Section Round.
Variable ids : list string.
Hypothesis Hlen : 2 <= List.length ids.
Hypothesis Hnd : NoDup ids.
Hypothesis Hbye : ~ In BYE ids.

(** The names of one round, before the pairings with ["BYE"] are dropped,
    are the padded list in another order. *)
Lemma round_names_perm h r :
  List.length (padded ids) = 2 * h -> 1 <= h -> r < 2 * h - 1 ->
  Permutation (names (map (nmp (padded ids)) (ipairs (2 * h - 1) h r))) (padded ids).
Proof.
  intros Hm Hh Hr. rewrite names_nmp.
  transitivity (map (fun j => nth j (padded ids) "") (seq 0 (2 * h))).
  - apply Permutation_map. apply round_positions_perm; assumption.
  - rewrite <- Hm, map_nth_seq_self. reflexivity.
Qed.

Lemma round_names_NoDup h r :
  List.length (padded ids) = 2 * h -> 1 <= h -> r < 2 * h - 1 ->
  NoDup (names (map (nmp (padded ids)) (ipairs (2 * h - 1) h r))).
Proof.
  intros Hm Hh Hr. eapply Permutation_NoDup.
  - apply Permutation_sym. apply round_names_perm; assumption.
  - apply NoDup_padded; assumption.
Qed.

End Round.

(** Number of rounds: [create_schedule] returns no round for fewer than two
    identifiers, and otherwise exactly [get_num_rounds(n)] rounds: [n - 1]
    for even [n], [n] for odd [n]. *)
Theorem create_schedule_num_rounds (player_ids : list string) :
  (List.length player_ids < 2 -> create_schedule player_ids = []) /\
  (2 <= List.length player_ids ->
     Z.of_nat (List.length (create_schedule player_ids)) =
     get_num_rounds (Z.of_nat (List.length player_ids))).
Proof.
  unfold create_schedule. split; intros H.
  - apply Nat.ltb_lt in H. rewrite H. reflexivity.
  - destruct (Nat.ltb_spec (List.length player_ids) 2); [lia|].
    rewrite rounds_length. unfold get_num_rounds.
    destruct (Nat.odd (List.length player_ids)) eqn:Eo.
    + apply Nat.odd_spec in Eo as [p Ep]. rewrite Ep.
      destruct (Z.eqb_spec (Z.of_nat (2 * p + 1)%nat mod 2)%Z 0%Z); Z.div_mod_to_equations; lia.
    + assert (Ee : Nat.even (List.length player_ids) = true)
        by (rewrite <- Nat.negb_odd, Eo; reflexivity).
      apply Nat.even_spec in Ee as [p Ep]. rewrite Ep.
      destruct (Z.eqb_spec (Z.of_nat (2 * p)%nat mod 2)%Z 0%Z); Z.div_mod_to_equations; lia.
Qed.

Lemma create_schedule_num_rounds_witness :
  Z.of_nat (List.length (create_schedule ["P01"; "P02"; "P03"])) =
  get_num_rounds (Z.of_nat (List.length ["P01"; "P02"; "P03"])).
Proof.
  apply (proj2 (create_schedule_num_rounds ["P01"; "P02"; "P03"])). simpl. lia.
Defined.

(** Within every round of the schedule of distinct identifiers (none of
    them ["BYE"]), no participant appears in two pairings, and every name
    in the round is one of the identifiers. *)
Theorem create_schedule_round_disjoint (player_ids : list string) :
  2 <= List.length player_ids -> NoDup player_ids -> ~ In "BYE" player_ids ->
  forall R, In R (create_schedule player_ids) ->
    NoDup (names R) /\ (forall x, In x (names R) -> In x player_ids).
Proof.
  intros H2 Hnd Hb R HR.
  destruct (create_schedule_view player_ids H2) as (h & Hm & Hh & E).
  rewrite E in HR. apply in_map_iff in HR as [r [<- Hr]]. apply in_seq in Hr.
  split.
  - apply NoDup_names_filter. apply round_names_NoDup; try assumption; lia.
  - intros x Hx. apply In_names_filter in Hx as [Hx Hx'].
    eapply Permutation_in in Hx; [|apply round_names_perm; try assumption; lia].
    unfold padded in Hx. destruct (Nat.odd _); [|exact Hx].
    apply in_app_iff in Hx as [Hx|[<-|[]]]; [exact Hx|contradiction].
Qed.

Lemma create_schedule_round_disjoint_witness :
  NoDup (names (hd [] (create_schedule ["P01"; "P02"; "P03"; "P04"; "P05"]))).
Proof.
  apply (create_schedule_round_disjoint ["P01"; "P02"; "P03"; "P04"; "P05"]).
  - simpl. lia.
  - repeat constructor; simpl; intuition discriminate.
  - simpl. intuition discriminate.
  - vm_compute. left. reflexivity.
Defined.

(** Every round of the schedule of distinct identifiers (none of them
    ["BYE"]) holds exactly [get_matches_per_round(n) = n // 2] pairings:
    for odd [n] exactly one participant sits out each round. *)
Theorem create_schedule_round_size (player_ids : list string) :
  2 <= List.length player_ids -> NoDup player_ids -> ~ In "BYE" player_ids ->
  forall R, In R (create_schedule player_ids) ->
    Z.of_nat (List.length R) = get_matches_per_round (Z.of_nat (List.length player_ids)).
Proof.
  intros H2 Hnd Hb R HR.
  destruct (create_schedule_view player_ids H2) as (h & Hm & Hh & E).
  rewrite E in HR. apply in_map_iff in HR as [r [<- Hr]]. apply in_seq in Hr.
  pose proof (kept_plus_bye (map (nmp (padded player_ids)) (ipairs (2 * h - 1) h r))
                (round_names_NoDup player_ids Hnd Hb h r Hm Hh ltac:(lia))) as K.
  unfold count_bye in K.
  rewrite (count_perm _ _ _ (round_names_perm player_ids h r Hm Hh ltac:(lia))) in K.
  fold (count_bye (padded player_ids)) in K.
  rewrite count_bye_padded in K by assumption.
  assert (Hl : List.length (ipairs (2 * h - 1) h r) = h)
    by (unfold ipairs; rewrite length_map, length_seq; reflexivity).
  rewrite length_map, Hl in K.
  rewrite length_padded in Hm. unfold get_matches_per_round.
  destruct (Nat.odd (List.length player_ids)); Z.div_mod_to_equations; lia.
Qed.

Lemma create_schedule_round_size_witness :
  Z.of_nat (List.length (hd [] (create_schedule ["P01"; "P02"; "P03"; "P04"; "P05"]))) =
  get_matches_per_round 5.
Proof.
  apply (create_schedule_round_size ["P01"; "P02"; "P03"; "P04"; "P05"]).
  - simpl. lia.
  - repeat constructor; simpl; intuition discriminate.
  - simpl. intuition discriminate.
  - vm_compute. left. reflexivity.
Defined.

End Rounds.

(* ================================================================== *)
(** ** Python dictionaries with string keys *)
(* ================================================================== *)

Module Dict.

(** An insertion-ordered dictionary: [d[k] = v] overwrites an existing key
    in place and appends a new one. *)
Definition dict (V : Type) := list (string * V).

Fixpoint set {V} (k : string) (v : V) (d : dict V) : dict V :=
  match d with
  | [] => [(k, v)]
  | (k', v') :: d' => if String.eqb k k' then (k, v) :: d' else (k', v') :: set k v d'
  end.

Fixpoint get {V} (k : string) (d : dict V) : option V :=
  match d with
  | [] => None
  | (k', v) :: d' => if String.eqb k k' then Some v else get k d'
  end.

(** The literal [{k1: v1, k2: v2, ...}]. *)
Definition of_list {V} (kvs : list (string * V)) : dict V :=
  fold_left (fun d kv => set (fst kv) (snd kv) d) kvs [].

Lemma get_pair {V} (a b : string) (va vb : V) :
  a <> b -> get a (of_list [(a, va); (b, vb)]) = Some va /\
            get b (of_list [(a, va); (b, vb)]) = Some vb.
Proof.
  intros Hab. unfold of_list. simpl.
  destruct (String.eqb_spec b a) as [->|Hba]; [contradiction|].
  simpl. rewrite String.eqb_refl.
  destruct (String.eqb_spec a b) as [E|_]; [contradiction|].
  rewrite (proj2 (String.eqb_neq b a) Hba), String.eqb_refl. split; reflexivity.
Qed.

End Dict.

(* ================================================================== *)
(** ** [RoundRobinScheduler.validate_schedule] and [get_total_matches] *)
(* ================================================================== *)

Module Validate.
Import Scheduler Rounds Dict.

(** [get_total_matches]: [num_players * (num_players - 1) // 2]. *)
Definition get_total_matches (num_players : Z) : Z :=
  Z.div (num_players * (num_players - 1)) 2.

(** [tuple(sorted([player_a, player_b]))]: [sorted] only asks whether the
    second element is smaller than the first ([<] on [str]). *)
Definition sort2 (a b : string) : string * string :=
  if String.ltb b a then (b, a) else (a, b).

Definition pair_eqb (x y : string * string) : bool :=
  String.eqb (fst x) (fst y) && String.eqb (snd x) (snd y).

(** The loop over all pairings, in schedule order, with [all_matches] and
    [player_match_counts]; [None] is an early [return False]. *)
Fixpoint check_matches (ms : list (string * string)) (all_matches : list (string * string))
    (counts : dict Z) : option (list (string * string) * dict Z) :=
  match ms with
  | [] => Some (all_matches, counts)
  | (player_a, player_b) :: ms' =>
      if String.eqb player_a player_b then None
      else
        let m := sort2 player_a player_b in
        if existsb (pair_eqb m) all_matches then None
        else
          let all_matches := all_matches ++ [m] in
          let counts := match get player_a counts with
                        | Some c => set player_a (c + 1)%Z counts
                        | None => counts
                        end in
          let counts := match get player_b counts with
                        | Some c => set player_b (c + 1)%Z counts
                        | None => counts
                        end in
          check_matches ms' all_matches counts
  end.

Definition validate_schedule (schedule : list (list (string * string)))
    (player_ids : list string) : bool :=
  let expected_matches := get_total_matches (Z.of_nat (List.length player_ids)) in
  let player_match_counts := of_list (map (fun pid => (pid, 0%Z)) player_ids) in
  match check_matches (List.concat schedule) [] player_match_counts with
  | None => false
  | Some (all_matches, counts) =>
      if negb (Z.eqb (Z.of_nat (List.length all_matches)) expected_matches) then false
      else
        let expected_per_player := (Z.of_nat (List.length player_ids) - 1)%Z in
        forallb (fun kv => Z.eqb (snd kv) expected_per_player) counts
  end.

Lemma sort2_cases a b : sort2 a b = (a, b) \/ sort2 a b = (b, a).
Proof. unfold sort2. destruct (String.ltb b a); auto. Qed.

Lemma sort2_inj a b c d :
  sort2 a b = sort2 c d -> (a = c /\ b = d) \/ (a = d /\ b = c).
Proof.
  intros E.
  destruct (sort2_cases a b) as [E1|E1], (sort2_cases c d) as [E2|E2];
    rewrite E1, E2 in E; injection E as -> ->; auto.
Qed.

Lemma pair_eqb_spec x y : pair_eqb x y = true <-> x = y.
Proof.
  destruct x as [a b], y as [c d]. unfold pair_eqb. simpl.
  rewrite andb_true_iff, !String.eqb_eq. split; [intros [-> ->]|intros E; injection E]; auto.
Qed.

Lemma get_keys ids (f : string -> Z) x :
  get x (map (fun pid => (pid, f pid)) ids) = if in_dec string_dec x ids then Some (f x) else None.
Proof.
  induction ids as [|y ids IH]; [reflexivity|]. simpl.
  destruct (String.eqb_spec x y) as [->|Hxy].
  - destruct (string_dec y y) as [_|]; [reflexivity|contradiction].
  - rewrite IH. destruct (in_dec string_dec x ids), (string_dec y x); try reflexivity;
      try (exfalso; auto; fail); tauto.
Qed.

Lemma set_keys ids (f : string -> Z) x v :
  NoDup ids -> In x ids ->
  set x v (map (fun pid => (pid, f pid)) ids) =
  map (fun pid => (pid, if String.eqb pid x then v else f pid)) ids.
Proof.
  induction 1 as [|y ids Hy Hnd IH]; intros Hx; [contradiction|]. simpl.
  destruct (String.eqb_spec x y) as [->|Hxy].
  - rewrite String.eqb_refl. f_equal. apply map_ext_in. intros pid Hpid.
    destruct (String.eqb_spec pid y) as [->|]; [contradiction|reflexivity].
  - destruct (String.eqb_spec y x) as [E|_]; [congruence|].
    destruct Hx as [E|Hx]; [congruence|]. rewrite IH by exact Hx. reflexivity.
Qed.

Lemma set_new {V} (d : dict V) k v : ~ In k (map fst d) -> set k v d = d ++ [(k, v)].
Proof.
  induction d as [|[k' v'] d IH]; intros Hk; [reflexivity|]. simpl in *.
  destruct (String.eqb_spec k k') as [->|_]; [tauto|]. rewrite IH by tauto. reflexivity.
Qed.

Lemma of_list_zero ids :
  NoDup ids -> of_list (map (fun pid => (pid, 0%Z)) ids) = map (fun pid => (pid, 0%Z)) ids.
Proof.
  intros Hnd. unfold of_list.
  assert (G : forall pre, NoDup (pre ++ ids) ->
            fold_left (fun d kv => set (fst kv) (snd kv) d) (map (fun pid => (pid, 0%Z)) ids)
              (map (fun pid => (pid, 0%Z)) pre)
            = map (fun pid => (pid, 0%Z)) (pre ++ ids)).
  { induction ids as [|x ids IH]; intros pre H; simpl.
    - rewrite app_nil_r. reflexivity.
    - rewrite set_new.
      + replace (map (fun pid => (pid, 0%Z)) pre ++ [(x, 0%Z)])
          with (map (fun pid => (pid, 0%Z)) (pre ++ [x])) by (rewrite map_app; reflexivity).
        rewrite IH; [rewrite <- app_assoc; reflexivity| |].
        * inversion Hnd; assumption.
        * rewrite <- app_assoc. exact H.
      + rewrite map_map. simpl. rewrite map_id. intros Hx.
        apply NoDup_remove_2 in H. apply H. apply in_or_app. left. exact Hx. }
  apply (G []). exact Hnd.
Qed.

Lemma check_matches_ok ids (ms : list (string * string)) seen (f : string -> Z) :
  NoDup ids ->
  (forall p, In p ms -> fst p <> snd p) ->
  NoDup (seen ++ map (fun p => sort2 (fst p) (snd p)) ms) ->
  check_matches ms seen (map (fun pid => (pid, f pid)) ids) =
  Some (seen ++ map (fun p => sort2 (fst p) (snd p)) ms,
        map (fun pid => (pid, (f pid + Z.of_nat (player_count pid ms))%Z)) ids).
Proof.
  intros Hnd. revert seen f.
  induction ms as [|[a b] ms IH]; intros seen f Hne Hdup; simpl.
  - rewrite app_nil_r. f_equal. f_equal. apply map_ext. intros pid. f_equal.
    unfold player_count. simpl. lia.
  - destruct (String.eqb_spec a b) as [E|Hab]; [exfalso; apply (Hne (a, b)); simpl; auto|].
    replace (existsb (pair_eqb (sort2 a b)) seen) with false.
    2: { symmetry. apply not_true_iff_false. intros Hex.
         apply existsb_exists in Hex as [x [Hx Heq]]. apply pair_eqb_spec in Heq.
         subst x. simpl in Hdup. apply NoDup_remove_2 in Hdup. apply Hdup.
         apply in_or_app. left. exact Hx. }
    set (fa := fun pid => if String.eqb pid a then (f a + 1)%Z else f pid).
    assert (Ea : (match get a (map (fun pid => (pid, f pid)) ids) with
                  | Some c => set a (c + 1)%Z (map (fun pid => (pid, f pid)) ids)
                  | None => map (fun pid => (pid, f pid)) ids end)
                 = map (fun pid => (pid, fa pid)) ids).
    { rewrite get_keys. destruct (in_dec string_dec a ids) as [Hin|Hin].
      - rewrite set_keys by assumption. reflexivity.
      - apply map_ext_in. intros pid Hpid. unfold fa.
        destruct (String.eqb_spec pid a) as [->|]; [contradiction|reflexivity]. }
    rewrite Ea.
    set (fb := fun pid => if String.eqb pid b then (fa b + 1)%Z else fa pid).
    assert (Eb : (match get b (map (fun pid => (pid, fa pid)) ids) with
                  | Some c => set b (c + 1)%Z (map (fun pid => (pid, fa pid)) ids)
                  | None => map (fun pid => (pid, fa pid)) ids end)
                 = map (fun pid => (pid, fb pid)) ids).
    { rewrite get_keys. destruct (in_dec string_dec b ids) as [Hin|Hin].
      - rewrite set_keys by assumption. reflexivity.
      - apply map_ext_in. intros pid Hpid. unfold fb.
        destruct (String.eqb_spec pid b) as [->|]; [contradiction|reflexivity]. }
    rewrite Eb. rewrite IH.
    + rewrite <- app_assoc. simpl. f_equal. f_equal. apply map_ext. intros pid.
      f_equal. unfold fb, fa, player_count. simpl.
      destruct (String.eqb_spec pid b), (String.eqb_spec pid a), (String.eqb_spec a pid),
        (String.eqb_spec b pid), (String.eqb_spec b a); subst; simpl; try congruence; lia.
    + intros p Hp. apply Hne. right. exact Hp.
    + rewrite <- app_assoc. exact Hdup.
Qed.

Lemma NoDup_map_inj {A B} (f : A -> B) l x y :
  NoDup (map f l) -> In x l -> In y l -> f x = f y -> x = y.
Proof.
  induction l as [|z l IH]; simpl; [tauto|]. intros H Hx Hy E.
  inversion H as [|? ? Hz Hl]. subst.
  destruct Hx as [<-|Hx], Hy as [<-|Hy]; try reflexivity.
  - exfalso. apply Hz. rewrite E. apply in_map. exact Hy.
  - exfalso. apply Hz. rewrite <- E. apply in_map. exact Hx.
  - apply IH; assumption.
Qed.

Lemma NoDup_map_filter {A B} (g : A -> B) (f : A -> bool) l :
  NoDup (map g l) -> NoDup (map g (filter f l)).
Proof.
  induction l as [|x l IH]; simpl; [auto|]. intros H. inversion H as [|? ? Hx Hl]. subst.
  destruct (f x); [|apply IH; exact Hl]. simpl. constructor; [|apply IH; exact Hl].
  intros Hin. apply Hx. apply in_map_iff in Hin as [y [Ey Hy]].
  rewrite <- Ey. apply in_map. apply filter_In in Hy. tauto.
Qed.

Section Valid.
Variable ids : list string.
Hypothesis Hlen : 2 <= List.length ids.
Hypothesis Hnd : NoDup ids.
Hypothesis Hbye : ~ In BYE ids.

Lemma pairings_sorted_NoDup :
  NoDup (map (fun p => sort2 (fst p) (snd p)) (all_pairings ids)).
Proof.
  destruct (padded_even ids Hlen) as [h [Hm Hh]].
  rewrite all_pairings_idx by assumption.
  replace (List.length (padded ids) / 2) with h
    by (rewrite Hm, Nat.mul_comm, Nat.div_mul; lia).
  apply NoDup_map_filter. rewrite map_map.
  set (k := List.length (padded ids) - 1).
  assert (Hk : k + 1 = 2 * h) by (unfold k; lia).
  pose proof (Permutation_NoDup (Permutation_sym (IP_normp_perm h k Hh Hk))
                (NoDup_allpairs (k + 1))) as HN.
  apply NoDup_map_on; [apply (NoDup_map_inv normp); exact HN|].
  intros x y Hx Hy E.
  destruct x as [a b], y as [c d].
  pose proof (IP_valid h k Hh Hk a b Hx) as (Hab & Ha & Hb).
  pose proof (IP_valid h k Hh Hk c d Hy) as (Hcd & Hc & Hd).
  apply (NoDup_map_inj normp _ _ _ HN Hx Hy).
  unfold nmp in E. simpl in E. apply sort2_inj in E.
  pose proof (NoDup_padded ids Hnd Hbye) as Hq.
  assert (Hinj : forall i j, i < k + 1 -> j < k + 1 ->
                   nth i (padded ids) "" = nth j (padded ids) "" -> i = j).
  { intros i j Hi Hj Eij. eapply NoDup_nth; eauto; unfold k in *; lia. }
  unfold normp. simpl.
  destruct E as [[E1 E2]|[E1 E2]]; apply Hinj in E1; try lia; apply Hinj in E2; try lia;
    subst; f_equal; lia.
Qed.

Lemma pairings_distinct p : In p (all_pairings ids) -> fst p <> snd p.
Proof.
  intros Hp. apply (in_all_pairings ids Hlen) in Hp as (a & b & Hab & Ha & Hb & ->).
  unfold nmp; simpl. rewrite <- String.eqb_neq, (eqb_nth ids Hnd) by assumption.
  apply Nat.eqb_neq. assumption.
Qed.

Lemma pairings_player_count x : In x ids -> player_count x (all_pairings ids) = List.length ids - 1.
Proof.
  intros Hx. apply (In_nth _ _ "") in Hx as [ix [Hix <-]].
  unfold player_count.
  rewrite (count_transport ids Hlen Hbye)
    by (intros; simpl; apply orb_comm).
  rewrite (filter_ext_in _ (fun ab => (fst ab =? ix) || (snd ab =? ix))).
  - rewrite count_member. destruct (Nat.ltb_spec ix (List.length ids)); lia.
  - intros [a b] Hab. apply In_allpairs in Hab. unfold nmp. simpl.
    rewrite !(eqb_nth ids Hnd) by (try assumption; lia). reflexivity.
Qed.

Lemma pairings_length :
  List.length (all_pairings ids) = List.length ids * (List.length ids - 1) / 2.
Proof.
  rewrite <- (filter_true (all_pairings ids)).
  rewrite (count_transport ids Hlen Hbye) by reflexivity.
  rewrite filter_true. apply length_allpairs_div.
Qed.

End Valid.

(** [validate_schedule] accepts every schedule [create_schedule] builds
    for [n >= 2] distinct identifiers none of which is ["BYE"]. *)
Theorem validate_create_schedule (player_ids : list string) :
  2 <= List.length player_ids -> NoDup player_ids -> ~ In "BYE" player_ids ->
  validate_schedule (create_schedule player_ids) player_ids = true.
Proof.
  intros H2 Hnd Hb. unfold validate_schedule.
  rewrite of_list_zero by assumption.
  fold (all_pairings player_ids).
  rewrite (check_matches_ok player_ids (all_pairings player_ids) [] (fun _ => 0%Z) Hnd).
  - simpl. rewrite length_map, pairings_length by assumption.
    replace (Z.of_nat (List.length player_ids * (List.length player_ids - 1) / 2))
      with (get_total_matches (Z.of_nat (List.length player_ids))).
    + rewrite Z.eqb_refl. simpl. apply forallb_forall. intros kv Hkv.
      apply in_map_iff in Hkv as [pid [<- Hpid]]. simpl.
      rewrite pairings_player_count by assumption. apply Z.eqb_eq. lia.
    + unfold get_total_matches. rewrite Nat2Z.inj_div, Nat2Z.inj_mul, Nat2Z.inj_sub by lia.
      reflexivity.
  - apply pairings_distinct; assumption.
  - apply pairings_sorted_NoDup; assumption.
Qed.

Lemma validate_create_schedule_witness :
  validate_schedule (create_schedule ["P01"; "P02"; "P03"; "P04"; "P05"])
    ["P01"; "P02"; "P03"; "P04"; "P05"] = true.
Proof.
  apply validate_create_schedule.
  - simpl. lia.
  - repeat constructor; simpl; intuition discriminate.
  - simpl. intuition discriminate.
Defined.

Lemma check_matches_some (ms : list (string * string)) seen counts r :
  NoDup seen -> check_matches ms seen counts = Some r ->
  (forall p, In p ms -> fst p <> snd p) /\
  NoDup (seen ++ map (fun p => sort2 (fst p) (snd p)) ms).
Proof.
  revert seen counts. induction ms as [|[a b] ms IH]; intros seen counts Hs H; simpl in *.
  - rewrite app_nil_r. split; [tauto|exact Hs].
  - destruct (String.eqb_spec a b) as [|Hab]; [discriminate|].
    destruct (existsb (pair_eqb (sort2 a b)) seen) eqn:Ex; [discriminate|].
    assert (Hn : ~ In (sort2 a b) seen).
    { intros Hin. assert (existsb (pair_eqb (sort2 a b)) seen = true) by
        (apply existsb_exists; exists (sort2 a b); split; [exact Hin|apply pair_eqb_spec; reflexivity]).
      congruence. }
    assert (Hs' : NoDup (seen ++ [sort2 a b])).
    { apply NoDup_app; [exact Hs|repeat constructor; simpl; tauto|].
      intros x Hx [<-|[]]. contradiction. }
    destruct (IH _ _ Hs' H) as [H1 H2]. split.
    + intros p [<-|Hp]; [exact Hab|apply H1; exact Hp].
    + rewrite <- app_assoc in H2. exact H2.
Qed.

(** What [validate_schedule] guarantees when it returns [True] for a list
    of distinct identifiers: no pairing has a player against itself, no
    unordered pair occurs twice, the schedule has [get_total_matches(n)]
    pairings, and each identifier plays exactly [n - 1] of them. *)
Theorem validate_schedule_sound (schedule : list (list (string * string)))
    (player_ids : list string) :
  NoDup player_ids -> validate_schedule schedule player_ids = true ->
  (forall p, In p (List.concat schedule) -> fst p <> snd p) /\
  NoDup (map (fun p => sort2 (fst p) (snd p)) (List.concat schedule)) /\
  Z.of_nat (List.length (List.concat schedule)) =
    get_total_matches (Z.of_nat (List.length player_ids)) /\
  (forall pid, In pid player_ids ->
     Z.of_nat (player_count pid (List.concat schedule)) =
     (Z.of_nat (List.length player_ids) - 1)%Z).
Proof.
  intros Hnd H. unfold validate_schedule in H.
  rewrite of_list_zero in H by exact Hnd.
  destruct (check_matches (List.concat schedule) [] (map (fun pid => (pid, 0%Z)) player_ids))
    as [[am counts]|] eqn:Ec; [|discriminate].
  destruct (check_matches_some _ _ _ _ (NoDup_nil _) Ec) as [Hne Hdup].
  rewrite (check_matches_ok player_ids _ [] (fun _ => 0%Z) Hnd Hne Hdup) in Ec.
  injection Ec as <- <-. simpl in *.
  destruct (Z.eqb_spec (Z.of_nat (List.length (map (fun p => sort2 (fst p) (snd p))
              (List.concat schedule)))) (get_total_matches (Z.of_nat (List.length player_ids))))
    as [Hl|]; [|discriminate].
  simpl in H. rewrite length_map in Hl.
  split; [exact Hne|]. split; [exact Hdup|]. split; [exact Hl|].
  intros pid Hpid. rewrite forallb_forall in H.
  specialize (H (pid, (0 + Z.of_nat (player_count pid (List.concat schedule)))%Z)).
  simpl in H. apply Z.eqb_eq in H; [lia|].
  apply in_map_iff. exists pid. split; [reflexivity|exact Hpid].
Qed.

Lemma validate_schedule_sound_witness :
  Z.of_nat (List.length (List.concat (create_schedule ["P01"; "P02"; "P03"]))) =
    get_total_matches 3%Z.
Proof.
  refine (proj1 (proj2 (proj2 (validate_schedule_sound (create_schedule ["P01"; "P02"; "P03"])
            ["P01"; "P02"; "P03"] _ _)))).
  - repeat constructor; simpl; intuition discriminate.
  - vm_compute. reflexivity.
Defined.

End Validate.

(* ================================================================== *)
(** ** Even/odd game logic ([EvenOddGame]) *)
(* ================================================================== *)

Module Game.
Import Dict.
Local Open Scope Z_scope.

Inductive MatchResult := WIN | DRAW | TECHNICAL_LOSS.

(** [GameResult]; the free-text [reason] field is not modelled. *)
Record GameResult := {
  status : MatchResult;
  winner_player_id : option string;
  drawn_number : Z;
  number_parity : string;
  choices : dict (option string);
  scores : dict Z
}.

Definition WIN_POINTS : Z := 3.
Definition DRAW_POINTS : Z := 1.
Definition LOSS_POINTS : Z := 0.

(** [number % 2] is Python's floor modulo, [Z.modulo]. *)
Definition get_parity (number : Z) : string :=
  if Z.eqb (Z.modulo number 2) 0 then "even" else "odd".

(** [determine_winner]; [draw_number] stands for the value
    [random.randint(1, 10)] returns when no number is given. *)
Definition determine_winner (draw_number : Z) (player_a player_b : string)
    (choice_a choice_b : string) (drawn : option Z) : GameResult :=
  let drawn_number := match drawn with Some d => d | None => draw_number end in
  let number_parity := get_parity drawn_number in
  let a_correct := String.eqb choice_a number_parity in
  let b_correct := String.eqb choice_b number_parity in
  let choices := of_list [(player_a, Some choice_a); (player_b, Some choice_b)] in
  if a_correct && negb b_correct then
    {| status := WIN; winner_player_id := Some player_a;
       drawn_number := drawn_number; number_parity := number_parity;
       choices := choices;
       scores := of_list [(player_a, WIN_POINTS); (player_b, LOSS_POINTS)] |}
  else if b_correct && negb a_correct then
    {| status := WIN; winner_player_id := Some player_b;
       drawn_number := drawn_number; number_parity := number_parity;
       choices := choices;
       scores := of_list [(player_a, LOSS_POINTS); (player_b, WIN_POINTS)] |}
  else
    {| status := DRAW; winner_player_id := None;
       drawn_number := drawn_number; number_parity := number_parity;
       choices := choices;
       scores := of_list [(player_a, DRAW_POINTS); (player_b, DRAW_POINTS)] |}.

Definition create_technical_loss (player_a player_b losing_player : string)
  : GameResult :=
  let winner := if String.eqb losing_player player_a then player_b else player_a in
  {| status := TECHNICAL_LOSS; winner_player_id := Some winner;
     drawn_number := 0; number_parity := "even";
     choices := of_list [(player_a, None); (player_b, None)];
     scores := of_list [(winner, WIN_POINTS); (losing_player, LOSS_POINTS)] |}.

Example determine_winner_8 :
  scores (determine_winner 0 "P01" "P02" "even" "odd" (Some 8)) =
  [("P01", 3%Z); ("P02", 0%Z)].
Proof. reflexivity. Qed.

(** C2. For distinct players and choices in {even, odd}: exactly one
    correct guess gives [WIN] to that player with scores 3 and 0; two or no
    correct guesses give [DRAW] with 1 point each; and the four rows of the
    resolution table hold. *)
Theorem determine_winner_table (draw : Z) (a b ca cb : string) (d : Z) :
  a <> b ->
  (ca = "even" \/ ca = "odd") -> (cb = "even" \/ cb = "odd") ->
  let r := determine_winner draw a b ca cb (Some d) in
  (ca = get_parity d -> cb <> get_parity d ->
     status r = WIN /\ winner_player_id r = Some a /\
     get a (scores r) = Some 3%Z /\ get b (scores r) = Some 0%Z) /\
  (cb = get_parity d -> ca <> get_parity d ->
     status r = WIN /\ winner_player_id r = Some b /\
     get b (scores r) = Some 3%Z /\ get a (scores r) = Some 0%Z) /\
  ((ca = get_parity d <-> cb = get_parity d) ->
     status r = DRAW /\ winner_player_id r = None /\
     get a (scores r) = Some 1%Z /\ get b (scores r) = Some 1%Z) /\
  (winner_player_id (determine_winner draw a b "even" "odd" (Some 8)) = Some a /\
   get a (scores (determine_winner draw a b "even" "odd" (Some 8))) = Some 3%Z /\
   get b (scores (determine_winner draw a b "even" "odd" (Some 8))) = Some 0%Z) /\
  winner_player_id (determine_winner draw a b "even" "odd" (Some 7)) = Some b /\
  (status (determine_winner draw a b "even" "even" (Some 4)) = DRAW /\
   get a (scores (determine_winner draw a b "even" "even" (Some 4))) = Some 1%Z /\
   get b (scores (determine_winner draw a b "even" "even" (Some 4))) = Some 1%Z) /\
  status (determine_winner draw a b "odd" "odd" (Some 6)) = DRAW.
Proof.
  intros Hab _ _ r.
  pose proof (get_pair a b 3%Z 0%Z Hab) as P30.
  pose proof (get_pair a b 0%Z 3%Z Hab) as P03.
  pose proof (get_pair a b 1%Z 1%Z Hab) as P11.
  unfold r, determine_winner; clear r. simpl.
  repeat split; intros;
    repeat match goal with
    | |- context [String.eqb ?x ?y] => destruct (String.eqb_spec x y)
    end; simpl; try tauto; try congruence.
Qed.

(** Witness: the theorem at two concrete players. *)
Lemma determine_winner_table_witness :
  status (determine_winner 5 "P01" "P02" "even" "odd" (Some 8)) = WIN.
Proof.
  refine (proj1 (proj1 (determine_winner_table 5 "P01" "P02" "even" "odd" 8
            ltac:(discriminate) (or_introl eq_refl) (or_intror eq_refl)) eq_refl _)).
  vm_compute. discriminate.
Defined.

End Game.

(* ================================================================== *)
(** ** Further properties of [EvenOddGame] *)
(* ================================================================== *)

Module GameProps.
Import Dict Game.
Local Open Scope Z_scope.

Lemma get_parity_cases d : get_parity d = "even" \/ get_parity d = "odd".
Proof. unfold get_parity. destruct (Z.eqb _ _); auto. Qed.

Lemma get_parity_plus_even d k : get_parity (d + 2 * k) = get_parity d.
Proof.
  unfold get_parity. rewrite (Z.mul_comm 2 k), Z_mod_plus_full. reflexivity.
Qed.

Ltac solve_eqbs :=
  repeat match goal with
  | |- context [String.eqb ?x ?y] => destruct (String.eqb_spec x y)
  end; simpl; try congruence; auto.

(** [determine_winner] is symmetric in its two players: swapping the
    players together with their choices gives the same status and winner,
    and every player keeps the same recorded choice and points. *)
Theorem determine_winner_swap (draw : Z) (a b ca cb : string) (dn : option Z) :
  a <> b ->
  let r := determine_winner draw a b ca cb dn in
  let r' := determine_winner draw b a cb ca dn in
  status r = status r' /\ winner_player_id r = winner_player_id r' /\
  drawn_number r = drawn_number r' /\ number_parity r = number_parity r' /\
  (forall x, get x (choices r) = get x (choices r')) /\
  (forall x, get x (scores r) = get x (scores r')).
Proof.
  intros Hab r r'. unfold r, r', determine_winner, of_list; clear r r'. simpl.
  destruct (String.eqb_spec b a) as [->|_]; [contradiction|].
  destruct (String.eqb_spec a b) as [->|_]; [contradiction|].
  set (pn := get_parity _).
  destruct (String.eqb ca pn), (String.eqb cb pn); simpl;
    repeat split; intros x; simpl; solve_eqbs.
Qed.

Lemma determine_winner_swap_witness :
  "P01" <> "P02" /\
  status (determine_winner 3 "P01" "P02" "odd" "even" None) =
  status (determine_winner 3 "P02" "P01" "even" "odd" None).
Proof.
  split; [discriminate|].
  exact (proj1 (determine_winner_swap 3 "P01" "P02" "odd" "even" None ltac:(discriminate))).
Defined.

(** The outcome depends on the drawn number only through its parity:
    drawing [d + 2k] instead of [d] (negative numbers included, [%] being
    floor modulo) leaves the parity, status, winner, choices and scores
    unchanged. *)
Theorem determine_winner_parity_only (draw : Z) (a b ca cb : string) (d k : Z) :
  let r := determine_winner draw a b ca cb (Some d) in
  let r' := determine_winner draw a b ca cb (Some (d + 2 * k)) in
  number_parity r' = number_parity r /\ status r' = status r /\
  winner_player_id r' = winner_player_id r /\ choices r' = choices r /\
  scores r' = scores r /\ drawn_number r' = d + 2 * k.
Proof.
  intros r r'. unfold r, r'; clear r r'.
  cbv beta iota zeta delta [determine_winner]. rewrite get_parity_plus_even.
  destruct (String.eqb ca (get_parity d) && _) ; [|destruct (_ && _)];
    repeat split.
Qed.

(** [determine_winner] compares the choices with the exact strings
    ["even"] and ["odd"]: a player whose choice is neither (for instance
    ["EVEN"]) never wins and never gets [WIN_POINTS]; if neither choice is
    exact, the game is a [DRAW] with [DRAW_POINTS] each. *)
Theorem determine_winner_inexact_choice (draw : Z) (a b ca cb : string) (dn : option Z) :
  a <> b -> ca <> "even" -> ca <> "odd" ->
  let r := determine_winner draw a b ca cb dn in
  winner_player_id r <> Some a /\ get a (scores r) <> Some WIN_POINTS /\
  (cb <> "even" -> cb <> "odd" ->
     status r = DRAW /\ get a (scores r) = Some DRAW_POINTS /\
     get b (scores r) = Some DRAW_POINTS).
Proof.
  intros Hab Hca1 Hca2 r. unfold r, determine_winner, of_list; clear r. simpl.
  set (d := match dn with Some d => d | None => draw end).
  assert (Ea : String.eqb ca (get_parity d) = false).
  { apply String.eqb_neq. destruct (get_parity_cases d) as [->| ->]; assumption. }
  rewrite Ea. simpl.
  destruct (String.eqb_spec b a) as [->|_]; [contradiction|].
  unfold WIN_POINTS, LOSS_POINTS, DRAW_POINTS.
  destruct (String.eqb_spec cb (get_parity d)) as [Eb|Eb]; simpl; (split; [|split]);
    try (solve_eqbs; fail).
  all: intros; try (exfalso; destruct (get_parity_cases d) as [E|E]; congruence);
    repeat split; solve_eqbs.
Qed.

Lemma determine_winner_inexact_choice_witness :
  winner_player_id (determine_winner 3 "P01" "P02" "ODD" "even" (Some 7)) <> Some "P01".
Proof.
  exact (proj1 (determine_winner_inexact_choice 3 "P01" "P02" "ODD" "even" (Some 7)
                  ltac:(discriminate) ltac:(discriminate) ltac:(discriminate))).
Defined.

(** A match of a player against itself: the [choices] and [scores]
    dictionaries have a single entry, holding the second player's choice and
    points; so when [choice_a] is right and [choice_b] wrong the status is
    [WIN] for that player while its recorded score is [LOSS_POINTS]. *)
Theorem determine_winner_self_match (draw : Z) (a ca cb : string) (d : Z) :
  let r := determine_winner draw a a ca cb (Some d) in
  choices r = [(a, Some cb)] /\ (exists v, scores r = [(a, v)]) /\
  (ca = get_parity d -> cb <> get_parity d ->
     status r = WIN /\ winner_player_id r = Some a /\ scores r = [(a, LOSS_POINTS)]).
Proof.
  intros r. unfold r, determine_winner, of_list; clear r. simpl.
  rewrite String.eqb_refl.
  destruct (String.eqb_spec ca (get_parity d)), (String.eqb_spec cb (get_parity d));
    simpl; repeat split; try (eexists; reflexivity); intros; congruence.
Qed.

(** [create_technical_loss]: the winner is [player_b] exactly when the
    loser is [player_a], else [player_a] (also for a [losing_player] that
    is neither player); for two distinct players the winner is recorded
    with [WIN_POINTS] and the loser with [LOSS_POINTS] and both choices are
    [None]; when [losing_player = player_a = player_b] the single scores
    entry is the loser's [LOSS_POINTS]. *)
Theorem create_technical_loss_cases (a b l : string) :
  let r := create_technical_loss a b l in
  status r = TECHNICAL_LOSS /\ drawn_number r = 0 /\ number_parity r = "even" /\
  (l <> a -> winner_player_id r = Some a /\ get a (scores r) = Some WIN_POINTS /\
             get l (scores r) = Some LOSS_POINTS) /\
  (l = a -> a <> b -> winner_player_id r = Some b /\ get b (scores r) = Some WIN_POINTS /\
             get a (scores r) = Some LOSS_POINTS) /\
  (a <> b -> get a (choices r) = Some None /\ get b (choices r) = Some None) /\
  (l = a -> a = b -> winner_player_id r = Some a /\ scores r = [(a, LOSS_POINTS)]).
Proof.
  intros r. unfold r, create_technical_loss, of_list; clear r.
  destruct (String.eqb_spec l a) as [->|Hla]; simpl;
    repeat split; intros; subst; try congruence; simpl;
    solve_eqbs; rewrite ?String.eqb_refl; simpl; solve_eqbs.
Qed.

End GameProps.

(* ================================================================== *)
(** ** Referee match flow ([RefereeHandlers], referee_REF01/handlers.py) *)
(* ================================================================== *)

Module Referee.
Import Dict Game.
Local Open Scope Z_scope.

(** JSON values as [response.json()] returns them. *)
#[warnings="-register-all"]
Inductive json :=
| JNull
| JBool (b : bool)
| JNum (n : Z)
| JStr (s : string)
| JArr (l : list json)
| JObj (o : dict json).

(** Python truth value of a decoded JSON value. *)
Definition truthy (v : json) : bool :=
  match v with
  | JNull => false
  | JBool b => b
  | JNum n => negb (Z.eqb n 0)
  | JStr s => negb (String.eqb s "")
  | JArr l => match l with [] => false | _ => true end
  | JObj o => match o with [] => false | _ => true end
  end.

(** Outcome of [await client.post(endpoint, json=payload)]: a response
    with its status code and its body ([None] when [response.json()]
    raises on a body that is not JSON), an [httpx.TimeoutException], or
    any other exception. *)
Inductive http_outcome :=
| Reply (status_code : Z) (body : option json)
| TimeoutExc
| OtherExc (msg : string).

(** The dictionary [_send_invitation] returns: [{"accepted": ...}] with
    an optional ["error"] entry (its text is not modelled beyond a tag). *)
Record inv_result := { accepted : json; error : option string }.

Definition send_invitation (endpoint : option string) (reply : http_outcome)
  : inv_result :=
  match endpoint with
  | None => {| accepted := JBool false; error := Some "Unknown player endpoint" |}
  | Some _ =>
      match reply with
      | Reply code body =>
          if Z.eqb code 200 then
            match body with
            | Some (JObj top) =>
                (* result = response.json().get("result", {}) *)
                let result := match get "result" top with
                              | Some v => v | None => JObj [] end in
                match result with
                | JObj res =>
                    (* result.get("accept", result.get("accepted", True)) *)
                    let acc := match get "accept" res with
                               | Some v => v
                               | None => match get "accepted" res with
                                         | Some v => v | None => JBool true end
                               end in
                    {| accepted := acc; error := None |}
                | _ => (* AttributeError: no .get on a non-dict *)
                    {| accepted := JBool false; error := Some "AttributeError" |}
                end
            | Some _ => {| accepted := JBool false; error := Some "AttributeError" |}
            | None => {| accepted := JBool false; error := Some "JSONDecodeError" |}
            end
          else {| accepted := JBool false; error := Some "HTTP" |}
      | TimeoutExc => {| accepted := JBool false; error := Some "Timeout" |}
      | OtherExc msg => {| accepted := JBool false; error := Some msg |}
      end
  end.

(** First entry of an insertion-ordered dictionary whose value fails [p]. *)
Fixpoint first_failing {V} (p : V -> bool) (d : dict V) : option string :=
  match d with
  | [] => None
  | (k, v) :: d' => if p v then first_failing p d' else Some k
  end.

(** [_run_match_async] from the invitation results on.  [invite_a] and
    [invite_b] are what [_send_invitation] returned for each player,
    [choice_a] and [choice_b] what [_request_choice] returned, and [draw]
    the number [random.randint] yields.  Notifications sent by
    [_finish_match] do not change the returned result. *)
Definition run_match (draw : Z) (player_a player_b : string)
    (invite_a invite_b : inv_result) (choice_a choice_b : option string)
  : GameResult :=
  let invite_results := set player_b invite_b (set player_a invite_a []) in
  match first_failing (fun r => truthy (accepted r)) invite_results with
  | Some pid => create_technical_loss player_a player_b pid
  | None =>
      let choices := set player_b choice_b (set player_a choice_a []) in
      match first_failing (fun c => match c with Some _ => true | None => false end)
                          choices with
      | Some pid => create_technical_loss player_a player_b pid
      | None =>
          let ca := match get player_a choices with Some (Some c) => c | _ => "" end in
          let cb := match get player_b choices with Some (Some c) => c | _ => "" end in
          determine_winner draw player_a player_b ca cb None
      end
  end.

(** A JSON-RPC error object answered with HTTP 200. *)
Definition rpc_error_body : json :=
  JObj [("jsonrpc", JStr "2.0");
        ("error", JObj [("code", JNum (-32603)); ("message", JStr "Internal error")]);
        ("id", JNum 1)].

Definition accept_body : json :=
  JObj [("jsonrpc", JStr "2.0"); ("result", JObj [("accept", JBool true)]); ("id", JNum 1)].

(** C4 (corrected). A participant whose reply is a JSON-RPC error (HTTP 200,
    no ["result"]) is counted as accepting the invitation: the match goes
    on to the choices and ends without a technical loss. *)
Lemma invitation_error_reply_accepted :
  let ia := send_invitation (Some "http://p01") (Reply 200 (Some rpc_error_body)) in
  let ib := send_invitation (Some "http://p02") (Reply 200 (Some accept_body)) in
  truthy (accepted ia) = true /\
  status (run_match 8 "P01" "P02" ia ib (Some "even") (Some "odd")) = WIN /\
  winner_player_id (run_match 8 "P01" "P02" ia ib (Some "even") (Some "odd")) = Some "P01".
Proof. vm_compute. repeat split. Qed.

Lemma first_failing_pair {V} (p : V -> bool) a b (va vb : V) :
  a <> b ->
  first_failing p (set b vb (set a va [])) =
  if p va then (if p vb then None else Some b) else Some a.
Proof.
  intros Hab. simpl. destruct (String.eqb_spec b a) as [->|_]; [contradiction|].
  simpl. destruct (p va), (p vb); reflexivity.
Qed.

(** C4 (as amended). An invitation counts as accepted exactly when the
    endpoint is known and the reply is HTTP 200 with a JSON object whose
    ["result"] (an empty object when absent) is an object whose ["accept"]
    value (else its ["accepted"] value, else [true]) is truthy.  If A's
    invitation is not accepted, or A's is and B's is not, the match result
    is the technical loss of that player: status [TECHNICAL_LOSS], the other
    player as winner with [WIN_POINTS] (3), the failing one with
    [LOSS_POINTS] (0), whatever the choices and the drawn number. *)
Theorem invitation_technical_loss (draw : Z) (a b : string) ep_a ep_b
    (reply_a reply_b : http_outcome) (ca cb : option string) :
  a <> b ->
  let ia := send_invitation ep_a reply_a in
  let ib := send_invitation ep_b reply_b in
  (truthy (accepted ia) = true <->
     exists ep top, ep_a = Some ep /\ reply_a = Reply 200 (Some (JObj top)) /\
       match (match get "result" top with Some v => v | None => JObj [] end) with
       | JObj res =>
           truthy (match get "accept" res with
                   | Some v => v
                   | None => match get "accepted" res with
                             | Some v => v | None => JBool true end
                   end) = true
       | _ => False
       end) /\
  (truthy (accepted ia) = false ->
     run_match draw a b ia ib ca cb = create_technical_loss a b a) /\
  (truthy (accepted ia) = true -> truthy (accepted ib) = false ->
     run_match draw a b ia ib ca cb = create_technical_loss a b b) /\
  (forall l w, (l, w) = (a, b) \/ (l, w) = (b, a) ->
     status (create_technical_loss a b l) = TECHNICAL_LOSS /\
     winner_player_id (create_technical_loss a b l) = Some w /\
     get w (scores (create_technical_loss a b l)) = Some WIN_POINTS /\
     get l (scores (create_technical_loss a b l)) = Some LOSS_POINTS).
Proof.
  intros Hab ia ib. split; [|split; [|split]].
  - unfold ia, send_invitation. split.
    + destruct ep_a as [ep|]; [|discriminate].
      destruct reply_a as [code body| |]; try discriminate.
      destruct (Z.eqb_spec code 200) as [->|]; [|discriminate].
      destruct body as [[| | | | |top]|]; try discriminate.
      intros H. exists ep, top. split; [reflexivity|]. split; [reflexivity|].
      destruct (match get "result" top with Some v => v | None => JObj [] end);
        try discriminate. exact H.
    + intros (ep & top & -> & -> & H). simpl.
      destruct (match get "result" top with Some v => v | None => JObj [] end);
        try contradiction. exact H.
  - intros Ha. unfold run_match. rewrite first_failing_pair, Ha by assumption.
    reflexivity.
  - intros Ha Hb. unfold run_match. rewrite first_failing_pair, Ha, Hb by assumption.
    reflexivity.
  - intros l w [E|E]; injection E as -> ->; unfold create_technical_loss; simpl.
    + rewrite String.eqb_refl.
      destruct (get_pair b a WIN_POINTS LOSS_POINTS) as [G1 G2]; [congruence|].
      simpl. repeat split; assumption.
    + destruct (String.eqb_spec b a) as [E|_]; [congruence|].
      destruct (get_pair a b WIN_POINTS LOSS_POINTS Hab) as [G1 G2].
      repeat split; assumption.
Qed.

(** Witness: the theorem at a timed-out first player. *)
Lemma invitation_technical_loss_witness :
  run_match 4 "P01" "P02" (send_invitation (Some "http://p01") TimeoutExc)
    (send_invitation (Some "http://p02") (Reply 200 (Some accept_body)))
    (Some "even") (Some "odd")
  = create_technical_loss "P01" "P02" "P01".
Proof.
  exact (proj1 (proj2 (invitation_technical_loss 4 "P01" "P02" (Some "http://p01")
    (Some "http://p02") TimeoutExc (Reply 200 (Some accept_body)) (Some "even") (Some "odd")
    ltac:(discriminate))) eq_refl).
Defined.

(** *** Timing of the two requests of a protocol step

    [_send_game_invitations] and [_collect_choices] build
    [tasks = {player_a: coro_a, player_b: coro_b}] from coroutine objects
    and then run [for player_id, task in tasks.items(): await task].  A
    coroutine object does nothing until it is awaited, and [await] runs it
    to completion, so each request starts when the previous one has ended.
    [duration] is how long a request takes: the peer's answer time, or the
    client timeout (10 s for invitations, 35 s for choices). *)
Record call := { callee : string; duration : Z }.

(** [(callee, start, end)] of each awaited coroutine, from time [t]. *)
Fixpoint await_each (t : Z) (cs : list call) : list (string * Z * Z) :=
  match cs with
  | [] => []
  | c :: cs' => (callee c, t, t + duration c) :: await_each (t + duration c) cs'
  end.

Definition send_game_invitations_timeline (t0 : Z) (player_a player_b : string)
    (da db : Z) : list (string * Z * Z) :=
  await_each t0 [{| callee := player_a; duration := da |};
                 {| callee := player_b; duration := db |}].

Definition collect_choices_timeline (t0 : Z) (player_a player_b : string)
    (da db : Z) : list (string * Z * Z) :=
  await_each t0 [{| callee := player_a; duration := da |};
                 {| callee := player_b; duration := db |}].

(** C9 (code bug). In both steps the request to player B starts only when
    the request to player A has finished: a peer A that never answers
    delays B's invitation by the full 10 s timeout and B's choice request
    by the full 35 s timeout. *)
Theorem protocol_steps_sequential (t0 da db : Z) (a b : string) :
  send_game_invitations_timeline t0 a b da db = [(a, t0, t0 + da); (b, t0 + da, t0 + da + db)] /\
  collect_choices_timeline t0 a b da db = [(a, t0, t0 + da); (b, t0 + da, t0 + da + db)] /\
  send_game_invitations_timeline t0 a b 10 db = [(a, t0, t0 + 10); (b, t0 + 10, t0 + 10 + db)] /\
  collect_choices_timeline t0 a b 35 db = [(a, t0, t0 + 35); (b, t0 + 35, t0 + 35 + db)].
Proof. repeat split. Qed.

End Referee.

(* ================================================================== *)
(** ** Choice validation and [_request_choice] *)
(* ================================================================== *)

Module Choice.
Import Dict Game Referee.
Local Open Scope Z_scope.

(** [str.lower] on one character.  Strings are modelled as sequences of
    Latin-1 code points (0..255); in that range Python lowercases A..Z and
    the letters U+00C0..U+00DE other than U+00D7, each by adding 32, and
    leaves every other character unchanged. *)
Definition lower_char (c : ascii) : ascii :=
  let n := nat_of_ascii c in
  if ((65 <=? n) && (n <=? 90))%nat || ((192 <=? n) && (n <=? 222) && negb (n =? 215))%nat
  then ascii_of_nat (n + 32) else c.

Fixpoint lower (s : string) : string :=
  match s with
  | EmptyString => EmptyString
  | String c s' => String (lower_char c) (lower s')
  end.

(** [VALID_CHOICES = {"even", "odd"}]. *)
Definition VALID_CHOICES : list string := ["even"; "odd"].

Definition mem (x : string) (l : list string) : bool := existsb (String.eqb x) l.

(** [validate_choice]: [choice.lower() in VALID_CHOICES]. *)
Definition validate_choice (choice : string) : bool :=
  mem (lower choice) VALID_CHOICES.

(** [normalize_choice]; [None] is the [ValueError] it raises. *)
Definition normalize_choice (choice : string) : option string :=
  let normalized := lower choice in
  if negb (mem normalized VALID_CHOICES) then None else Some normalized.

(** [_request_choice] from the endpoint lookup on.  Every exception
    raised inside the [try] ([response.json()] on a body that is not JSON,
    [.get] on a value that is not an object, [.lower()] on a value that is
    not a string) is caught and gives [None]. *)
Definition request_choice (endpoint : option string) (reply : http_outcome)
  : option string :=
  match endpoint with
  | None => None
  | Some _ =>
      match reply with
      | Reply code body =>
          if Z.eqb code 200 then
            match body with
            | Some (JObj top) =>
                (* result = response.json().get("result", {}) *)
                let result := match get "result" top with
                              | Some v => v | None => JObj [] end in
                match result with
                | JObj res =>
                    (* result.get("parity_choice", result.get("choice")) *)
                    let choice := match get "parity_choice" res with
                                  | Some v => v
                                  | None => match get "choice" res with
                                            | Some v => v | None => JNull end
                                  end in
                    if truthy choice then
                      match choice with
                      | JStr c =>
                          if validate_choice c then normalize_choice c else None
                      | _ => None (* AttributeError on .lower() *)
                      end
                    else None
                | _ => None (* AttributeError on .get *)
                end
            | Some _ => None (* AttributeError on .get *)
            | None => None   (* JSONDecodeError *)
            end
          else None
      | TimeoutExc => None
      | OtherExc _ => None
      end
  end.

(** All spellings of a lowercase ASCII word that differ only in the case
    of its letters. *)
Definition upper_char (c : ascii) : ascii := ascii_of_nat (nat_of_ascii c - 32).

Fixpoint case_variants (w : string) : list string :=
  match w with
  | EmptyString => [EmptyString]
  | String c w' =>
      flat_map (fun r => [String c r; String (upper_char c) r]) (case_variants w')
  end.

Definition choice_letters : list ascii := ["e"; "v"; "n"; "o"; "d"]%char.

Lemma lower_char_pre (c x : ascii) :
  In x choice_letters -> lower_char c = x -> c = x \/ c = upper_char x.
Proof.
  assert (All : forallb (fun x => forallb (fun n =>
            let c := ascii_of_nat n in
            implb (Ascii.eqb (lower_char c) x) (Ascii.eqb c x || Ascii.eqb c (upper_char x)))
            (seq 0 256)) choice_letters = true) by (vm_compute; reflexivity).
  intros Hx Hc. rewrite forallb_forall in All. specialize (All x Hx).
  rewrite forallb_forall in All.
  specialize (All (nat_of_ascii c)). simpl in All. rewrite ascii_nat_embedding in All.
  rewrite Hc, Ascii.eqb_refl in All.
  destruct (Ascii.eqb_spec c x) as [E|_]; [left; exact E|].
  destruct (Ascii.eqb_spec c (upper_char x)) as [E|_]; [right; exact E|].
  exfalso. assert (Hn := nat_ascii_bounded c).
  assert (In (nat_of_ascii c) (seq 0 256)) by (apply in_seq; lia).
  specialize (All H). discriminate.
Qed.

Lemma lower_variants (w s : string) :
  (forall x, In x (list_ascii_of_string w) -> In x choice_letters) ->
  lower s = w -> In s (case_variants w).
Proof.
  revert s. induction w as [|x w IH]; intros s Hw E; destruct s as [|c s]; simpl in *;
    try discriminate.
  - left. reflexivity.
  - injection E as Ec Es. apply in_flat_map. exists s. split.
    + apply IH; [intros y Hy; apply Hw; right; exact Hy | exact Es].
    + destruct (lower_char_pre c x (Hw x (or_introl eq_refl)) Ec) as [->| ->]; simpl; auto.
Qed.

(** [validate_choice] accepts exactly the spellings of ["even"] and
    ["odd"] with any mix of upper- and lowercase ASCII letters (24
    strings): no other string, no accented letter, no surrounding space. *)
Theorem validate_choice_spellings (choice : string) :
  validate_choice choice = true <->
  In choice (case_variants "even" ++ case_variants "odd").
Proof.
  split.
  - intros H. unfold validate_choice, mem, VALID_CHOICES in H. simpl in H.
    apply in_or_app.
    destruct (String.eqb_spec (lower choice) "even") as [E|_].
    + left. apply lower_variants; [|exact E].
      intros x Hx. simpl in Hx. unfold choice_letters. simpl. tauto.
    + destruct (String.eqb_spec (lower choice) "odd") as [E|_]; [|discriminate].
      right. apply lower_variants; [|exact E].
      intros x Hx. simpl in Hx. unfold choice_letters. simpl. tauto.
  - intros H.
    assert (All : forallb validate_choice (case_variants "even" ++ case_variants "odd") = true)
      by (vm_compute; reflexivity).
    rewrite forallb_forall in All. exact (All choice H).
Qed.

Lemma normalize_choice_some (choice n : string) :
  normalize_choice choice = Some n -> n = lower choice /\ (n = "even" \/ n = "odd").
Proof.
  unfold normalize_choice, validate_choice, mem, VALID_CHOICES. simpl.
  destruct (String.eqb_spec (lower choice) "even") as [E|_];
    [|destruct (String.eqb_spec (lower choice) "odd") as [E|_]]; simpl;
    intro Hn; try discriminate; injection Hn as <-; split; auto.
Qed.

(** [_request_choice] returns a choice exactly when the endpoint is known
    and the reply is HTTP 200 with a JSON object whose ["result"] (an empty
    object when absent) is an object whose ["parity_choice"] value (else its
    ["choice"] value) is a string that [validate_choice] accepts; the
    choice returned is that string lowercased, so it is ["even"] or
    ["odd"].  In particular a present ["parity_choice"] hides ["choice"],
    and a number, boolean, list or object as the choice gives [None]. *)
Theorem request_choice_result (endpoint : option string) (reply : http_outcome) (c : string) :
  request_choice endpoint reply = Some c <->
  (exists e top res s,
     endpoint = Some e /\ reply = Reply 200 (Some (JObj top)) /\
     match get "result" top with Some v => v | None => JObj [] end = JObj res /\
     match get "parity_choice" res with
     | Some v => v
     | None => match get "choice" res with Some v => v | None => JNull end
     end = JStr s /\
     validate_choice s = true /\ c = lower s /\ (c = "even" \/ c = "odd")).
Proof.
  split.
  - unfold request_choice. intros H.
    destruct endpoint as [e|]; [|discriminate].
    destruct reply as [code body| |msg]; try discriminate.
    destruct (Z.eqb_spec code 200) as [->|]; [|discriminate].
    destruct body as [[| | | | |top]|]; try discriminate.
    destruct (match get "result" top with Some v => v | None => JObj [] end)
      as [| | | | |res] eqn:Er; try discriminate.
    destruct (match get "parity_choice" res with
              | Some v => v
              | None => match get "choice" res with Some v => v | None => JNull end
              end) as [| | |s| |] eqn:Ec; destruct (truthy _); try discriminate.
    destruct (validate_choice s) eqn:Ev; [|discriminate].
    destruct (normalize_choice_some s c H) as [Hl Hc].
    exists e, top, res, s. repeat split; assumption.
  - intros (e & top & res & s & -> & -> & Er & Ec & Ev & -> & _).
    unfold request_choice. simpl. rewrite Er, Ec.
    assert (Ht : truthy (JStr s) = true).
    { simpl. destruct (String.eqb_spec s "") as [->|]; [discriminate|reflexivity]. }
    rewrite Ht, Ev. unfold normalize_choice.
    unfold validate_choice in Ev. rewrite Ev. reflexivity.
Qed.

(** Once both invitations are accepted, [_run_match_async] ends in a
    technical loss exactly when a choice is missing: player_a's missing
    choice is checked first, and then player_b's; with both choices present
    the result is [determine_winner] on them, never a technical loss. *)
Theorem run_match_after_invitations (draw : Z) (a b : string) (ia ib : inv_result)
    (oa ob : option string) :
  a <> b -> truthy (accepted ia) = true -> truthy (accepted ib) = true ->
  let r := run_match draw a b ia ib oa ob in
  (status r = TECHNICAL_LOSS <-> oa = None \/ ob = None) /\
  (oa = None -> r = create_technical_loss a b a) /\
  (oa <> None -> ob = None -> r = create_technical_loss a b b) /\
  (forall ca cb, oa = Some ca -> ob = Some cb -> r = determine_winner draw a b ca cb None).
Proof.
  intros Hab Ha Hb r. unfold r, run_match; clear r.
  rewrite first_failing_pair by exact Hab. rewrite Ha, Hb.
  rewrite first_failing_pair by exact Hab.
  assert (Hdw : forall ca cb, status (determine_winner draw a b ca cb None) <> TECHNICAL_LOSS).
  { intros ca cb. unfold determine_winner.
    destruct (_ && _); [discriminate|]. destruct (_ && _); discriminate. }
  destruct oa as [ca|], ob as [cb|]; simpl.
  - assert (Eba : String.eqb b a = false) by (apply String.eqb_neq; congruence).
    rewrite Eba. simpl. rewrite String.eqb_refl, Eba, String.eqb_refl.
    repeat split; intros;
      try (exfalso; eapply Hdw; eassumption);
      try (match goal with H : _ \/ _ |- _ => destruct H as [H|H]; discriminate end);
      try congruence.
  - repeat split; try congruence; auto.
  - repeat split; try congruence; auto.
  - repeat split; try congruence; auto.
Qed.

Lemma run_match_after_invitations_witness :
  status (run_match 8 "P01" "P02" {| accepted := JBool true; error := None |}
            {| accepted := JBool true; error := None |} (Some "even") None) = TECHNICAL_LOSS.
Proof.
  apply (proj2 (proj1 (run_match_after_invitations 8 "P01" "P02"
     {| accepted := JBool true; error := None |} {| accepted := JBool true; error := None |}
     (Some "even") None ltac:(discriminate) eq_refl eq_refl))).
  right. reflexivity.
Defined.

End Choice.

(** ** IEEE-754 binary64 arithmetic

    Python floats are doubles: [SpecFloat] with 53-bit mantissas and
    exponents up to 1024, rounding to nearest, ties to even.  [fval] is the
    value of a finite double, and [approx x R] says that [R] is a correct
    rounding of the real [x]: no double lies strictly between them. *)
Module Binary64.
Local Open Scope Z_scope.

Definition prec : Z := 53.
Definition emax : Z := 1024.

Definition mul := SFmul prec emax.
Definition add := SFadd prec emax.
Definition sub := SFsub prec emax.
Definition ltb := SFltb.
Definition leb := SFleb.
Definition valid := valid_binary prec emax.

(** [m * 2^e] rounded to the nearest double, ties to even. *)
Definition of_Z_exp (m e : Z) : spec_float := binary_normalize prec emax m e false.

Definition qpow2 (e : Z) : Q := Qpower (inject_Z 2) e.
Definition val (m e : Z) : Q := (inject_Z m * qpow2 e)%Q.

(** The real value of a finite double (0 for the infinities and NaN). *)
Definition fval (f : spec_float) : Q :=
  match f with
  | S754_finite s m e => if s then (- val (Zpos m) e)%Q else val (Zpos m) e
  | _ => 0%Q
  end.

(** The positive values a double can hold. *)
Definition rep (y : Q) : Prop :=
  exists my ey, 0 < my < 2 ^ 53 /\ -1074 <= ey <= 971 /\ (y == val my ey)%Q.

(** [R] is the double [binary_round] gives for a positive real [x] with
    sign [s]: a valid double that is no representable value away from
    [x]. *)
Definition rounds_to (s : bool) (x : Q) (R : spec_float) : Prop :=
  valid R = true /\
  (forall y, rep y -> (y <= x)%Q ->
     R = S754_infinity s \/ exists m' e', R = S754_finite s m' e' /\ (y <= val (Zpos m') e')%Q) /\
  (forall y, rep y -> (x <= y)%Q ->
     R = S754_zero s \/ exists m' e', R = S754_finite s m' e' /\ (val (Zpos m') e' <= y)%Q).

(* ---------------------------------------------------------------- *)
(** Powers of two in [Q]. *)

Lemma two_nz : ~ (inject_Z 2 == 0)%Q.
Proof. unfold Qeq; simpl; lia. Qed.

Lemma qpow2_add a b : (qpow2 (a + b) == qpow2 a * qpow2 b)%Q.
Proof. unfold qpow2. apply Qpower_plus, two_nz. Qed.

Lemma qpow2_nat n : 0 <= n -> (qpow2 n == inject_Z (2 ^ n))%Q.
Proof. intro H. unfold qpow2. rewrite Zpower_Qpower by exact H. reflexivity. Qed.

Lemma qpow2_pos e : (0 < qpow2 e)%Q.
Proof. unfold qpow2. apply Qpower_0_lt. unfold Qlt; simpl; lia. Qed.

Lemma qpow2_lt a b : a < b -> (qpow2 a < qpow2 b)%Q.
Proof. intro H. unfold qpow2. apply Qpower_lt_compat_l; [exact H|]. unfold Qlt; simpl; lia. Qed.

Lemma qpow2_le a b : a <= b -> (qpow2 a <= qpow2 b)%Q.
Proof. intro H. unfold qpow2. apply Qpower_le_compat_l; [exact H|]. unfold Qle; simpl; lia. Qed.

Lemma qpow2_lt_inv a b : (qpow2 a < qpow2 b)%Q -> a < b.
Proof. intro H. unfold qpow2 in H. apply Qpower_lt_compat_l_inv in H; [exact H|]. unfold Qlt; simpl; lia. Qed.

Lemma val_shift a e n : 0 <= n -> (val a (e + n) == val (a * 2 ^ n) e)%Q.
Proof.
  intro Hn. unfold val. rewrite qpow2_add, (qpow2_nat n Hn).
  rewrite inject_Z_mult. ring.
Qed.

Lemma val_le a b e : a <= b <-> (val a e <= val b e)%Q.
Proof.
  unfold val. pose proof (qpow2_pos e). split; intro H'.
  - apply Qmult_le_compat_r; [|apply Qlt_le_weak; assumption].
    rewrite <- Zle_Qle. exact H'.
  - rewrite Zle_Qle. apply Qmult_le_r with (qpow2 e); assumption.
Qed.

Lemma val_lt a b e : a < b <-> (val a e < val b e)%Q.
Proof.
  unfold val. pose proof (qpow2_pos e). split; intro H'.
  - apply Qmult_lt_compat_r; [assumption|]. rewrite <- Zlt_Qlt. exact H'.
  - rewrite Zlt_Qlt. apply Qmult_lt_r with (qpow2 e); assumption.
Qed.

Lemma val_pow a b : 0 <= a -> (val (2 ^ a) b == qpow2 (a + b))%Q.
Proof.
  intro H. unfold val. rewrite Z.add_comm, qpow2_add, (qpow2_nat a H). ring.
Qed.

Lemma val_mul a ea b eb : (val a ea * val b eb == val (a * b) (ea + eb))%Q.
Proof. unfold val. rewrite qpow2_add, inject_Z_mult. ring. Qed.

Lemma val_add a b e : (val a e + val b e == val (a + b) e)%Q.
Proof. unfold val. rewrite inject_Z_plus. ring. Qed.

Lemma val_opp a e : (- val a e == val (- a) e)%Q.
Proof. unfold val. rewrite inject_Z_opp. ring. Qed.

Lemma val_pos a e : 0 < a -> (0 < val a e)%Q.
Proof.
  intro H. apply Qle_lt_trans with (val 0 e).
  - unfold val. simpl. rewrite Qmult_0_l. apply Qle_refl.
  - apply val_lt. exact H.
Qed.

Lemma val_below a k e : 0 <= k -> a < 2 ^ k -> (val a e < qpow2 (k + e))%Q.
Proof. intros Hk H. rewrite <- val_pow by exact Hk. apply val_lt. exact H. Qed.

Lemma val_above a k e : 0 <= k -> 2 ^ k <= a -> (qpow2 (k + e) <= val a e)%Q.
Proof. intros Hk H. rewrite <- val_pow by exact Hk. apply val_le. exact H. Qed.

Lemma rep_pos y : rep y -> (0 < y)%Q.
Proof.
  intros (my & ey & Hm & He & Hy). rewrite Hy. apply val_pos. lia.
Qed.

Lemma rep_below y : rep y -> (y < qpow2 1024)%Q.
Proof.
  intros (my & ey & Hm & He & Hy). rewrite Hy.
  apply Qlt_le_trans with (qpow2 (53 + ey)).
  - apply val_below; lia.
  - apply qpow2_le. lia.
Qed.

Lemma rep_shift a b t : 0 <= t -> 0 < a -> a * 2 ^ t < 2 ^ 53 ->
  -1074 <= b - t -> b - t <= 971 -> rep (val a b).
Proof.
  intros Ht Ha Hat Hb1 Hb2. exists (a * 2 ^ t), (b - t).
  split; [split; [|exact Hat]|split; [lia|]].
  - apply Z.mul_pos_pos; [exact Ha|apply Z.pow_pos_nonneg; lia].
  - rewrite <- val_shift by exact Ht. replace (b - t + t) with b by ring. reflexivity.
Qed.

(* ---------------------------------------------------------------- *)
(** Digits. *)

Lemma digits_spec p :
  2 ^ (Zpos (digits2_pos p) - 1) <= Zpos p < 2 ^ Zpos (digits2_pos p).
Proof.
  induction p as [p IH|p IH|]; simpl digits2_pos; [| |simpl; lia];
  rewrite Pos2Z.inj_succ;
  set (D := Zpos (digits2_pos p)) in *;
  assert (HD0 : 1 <= D) by (unfold D; lia); clearbody D;
  assert (HD : 2 ^ D = 2 * 2 ^ (D - 1))
    by (rewrite <- Z.pow_succ_r by lia; f_equal; lia);
  replace (Z.succ D - 1) with D by lia;
  rewrite Z.pow_succ_r by lia;
  [rewrite (Pos2Z.inj_xI p) | rewrite (Pos2Z.inj_xO p)];
  generalize (2 ^ D) (2 ^ (D - 1)) HD IH; intros; lia.
Qed.

Lemma digits_unique p k :
  2 ^ (k - 1) <= Zpos p < 2 ^ k -> Zpos (digits2_pos p) = k.
Proof.
  intros [H1 H2]. pose proof (digits_spec p) as [D1 D2].
  set (D := Zpos (digits2_pos p)) in *.
  assert (HD : 1 <= D) by (unfold D; lia).
  assert (Hk : 1 <= k).
  { destruct (Z.le_gt_cases 1 k) as [|Hk]; [assumption|].
    destruct (Z.eq_dec k 0) as [->|Hk0]; [simpl in H2; lia|].
    rewrite Z.pow_neg_r in H2 by lia. lia. }
  destruct (Z.lt_trichotomy D k) as [Hlt|[Heq|Hgt]]; [|exact Heq|].
  - assert (2 ^ D <= 2 ^ (k - 1)) by (apply Z.pow_le_mono_r; lia). lia.
  - assert (2 ^ k <= 2 ^ (D - 1)) by (apply Z.pow_le_mono_r; lia). lia.
Qed.

Lemma digits_ge p k : 0 <= k -> 2 ^ k <= Zpos p -> k + 1 <= Zpos (digits2_pos p).
Proof.
  intros Hk H. pose proof (digits_spec p) as [_ D2].
  destruct (Z.le_gt_cases (k + 1) (Zpos (digits2_pos p))) as [|Hl]; [assumption|].
  assert (2 ^ Zpos (digits2_pos p) <= 2 ^ k) by (apply Z.pow_le_mono_r; lia). lia.
Qed.

Lemma digits_le p k : 0 <= k -> Zpos p < 2 ^ k -> Zpos (digits2_pos p) <= k.
Proof.
  intros Hk H. pose proof (digits_spec p) as [D1 _].
  destruct (Z.le_gt_cases (Zpos (digits2_pos p)) k) as [|Hl]; [assumption|].
  assert (2 ^ k <= 2 ^ (Zpos (digits2_pos p) - 1)) by (apply Z.pow_le_mono_r; lia). lia.
Qed.

Lemma fexp_eq z : fexp prec emax z = Z.max (z - 53) (-1074).
Proof. reflexivity. Qed.

(* ---------------------------------------------------------------- *)
(** Shifting right. *)

Lemma iter_add {A} (f : A -> A) a b x : Nat.iter (a + b) f x = Nat.iter a f (Nat.iter b f x).
Proof. induction a as [|a IH]; simpl; [reflexivity|]. rewrite IH. reflexivity. Qed.

Lemma iter_swap {A} (f : A -> A) a x : Nat.iter a f (f x) = f (Nat.iter a f x).
Proof. induction a as [|a IH]; simpl; [reflexivity|]. rewrite IH. reflexivity. Qed.

Lemma iter_pos_nat {A} (f : A -> A) p x : iter_pos f p x = Nat.iter (Pos.to_nat p) f x.
Proof.
  revert x; induction p as [p IH|p IH|]; intro x.
  - change (iter_pos f p~1 x) with (iter_pos f p (iter_pos f p (f x))).
    rewrite IH, IH, <- iter_add, iter_swap, Pos2Nat.inj_xI.
    replace (S (2 * Pos.to_nat p)) with (S (Pos.to_nat p + Pos.to_nat p)) by lia.
    reflexivity.
  - change (iter_pos f p~0 x) with (iter_pos f p (iter_pos f p x)).
    rewrite IH, IH, <- iter_add, Pos2Nat.inj_xO.
    replace (2 * Pos.to_nat p)%nat with (Pos.to_nat p + Pos.to_nat p)%nat by lia.
    reflexivity.
  - reflexivity.
Qed.

Lemma shr_1_spec q r s : 0 <= q ->
  shr_m (shr_1 (Build_shr_record q r s)) = q / 2 /\
  shr_r (shr_1 (Build_shr_record q r s)) = Z.odd q /\
  shr_s (shr_1 (Build_shr_record q r s)) = r || s.
Proof.
  intro Hq. rewrite <- Z.div2_div.
  destruct q as [|p|p]; [simpl; auto| |lia].
  destruct p; simpl; auto.
Qed.

Lemma shr_iter k m : 0 <= m ->
  shr_m (Nat.iter k shr_1 (Build_shr_record m false false)) = m / 2 ^ Z.of_nat k /\
  (m mod 2 ^ Z.of_nat k = 0 ->
     shr_r (Nat.iter k shr_1 (Build_shr_record m false false)) = false /\
     shr_s (Nat.iter k shr_1 (Build_shr_record m false false)) = false).
Proof.
  intro Hm. induction k as [|k [IH1 IH2]].
  - simpl. rewrite Z.div_1_r. auto.
  - simpl Nat.iter.
    destruct (Nat.iter k shr_1 (Build_shr_record m false false)) as [q r s] eqn:E.
    simpl in IH1, IH2.
    assert (Hpk : 0 < 2 ^ Z.of_nat k) by (apply Z.pow_pos_nonneg; lia).
    assert (Hq : 0 <= q) by (rewrite IH1; apply Z.div_pos; lia).
    destruct (shr_1_spec q r s Hq) as (H1 & H2 & H3).
    rewrite Nat2Z.inj_succ, Z.pow_succ_r by lia.
    split.
    + rewrite H1, IH1, Z.div_div by lia. f_equal. ring.
    + intro Hmod. rewrite H2, H3.
      apply Z.mod_divide in Hmod; [|lia]. destruct Hmod as [t Ht].
      assert (Hk : m mod 2 ^ Z.of_nat k = 0).
      { rewrite Ht. replace (t * (2 * 2 ^ Z.of_nat k)) with ((t * 2) * 2 ^ Z.of_nat k) by ring.
        apply Z.mod_mul. lia. }
      destruct (IH2 Hk) as [-> ->]. split; [|reflexivity].
      rewrite IH1, Ht.
      replace (t * (2 * 2 ^ Z.of_nat k)) with ((t * 2) * 2 ^ Z.of_nat k) by ring.
      rewrite Z.div_mul by lia. rewrite Z.odd_mul. simpl. apply andb_false_r.
Qed.

Lemma shr_exact_spec m e n : 0 <= m ->
  shr_m (fst (shr (Build_shr_record m false false) e n)) = m / 2 ^ Z.max 0 n /\
  snd (shr (Build_shr_record m false false) e n) = e + Z.max 0 n /\
  (m mod 2 ^ Z.max 0 n = 0 ->
     loc_of_shr_record (fst (shr (Build_shr_record m false false) e n)) = loc_Exact).
Proof.
  intro Hm. destruct n as [|p|p]; simpl.
  - rewrite Z.div_1_r. repeat split; lia.
  - rewrite iter_pos_nat.
    destruct (shr_iter (Pos.to_nat p) m Hm) as [H1 H2].
    rewrite positive_nat_Z in H1, H2.
    split; [exact H1|]. split; [reflexivity|].
    intro Hmod. destruct (H2 Hmod) as [Hr Hs].
    destruct (Nat.iter (Pos.to_nat p) shr_1 (Build_shr_record m false false)) as [q r s].
    simpl in Hr, Hs. subst. reflexivity.
  - rewrite Z.div_1_r. repeat split; lia.
Qed.

(* ---------------------------------------------------------------- *)
(** Rounding. *)

Lemma valid_finite s m e :
  fexp prec emax (Zpos (digits2_pos m) + e) = e -> e <= 971 -> valid (S754_finite s m e) = true.
Proof.
  intros H1 H2. unfold valid, valid_binary, bounded, canonical_mantissa.
  rewrite H1, Z.eqb_refl. simpl. apply Z.leb_le. exact H2.
Qed.

Lemma round_aux_char s (m : positive) e :
  e <= fexp prec emax (Zpos (digits2_pos m) + e) ->
  let e1 := fexp prec emax (Zpos (digits2_pos m) + e) in
  let q := Zpos m / 2 ^ (e1 - e) in
  q < 2 ^ 53 /\
  exists m1,
    q <= m1 <= q + 1 /\
    (Zpos m mod 2 ^ (e1 - e) = 0 -> m1 = q) /\
    binary_round_aux prec emax s (Zpos m) e loc_Exact =
      if m1 =? 0 then S754_zero s
      else if m1 =? 2 ^ 53 then
        (if e1 + 1 <=? 971 then S754_finite s (Z.to_pos (2 ^ 52)) (e1 + 1)
         else S754_infinity s)
      else if e1 <=? 971 then S754_finite s (Z.to_pos m1) e1 else S754_infinity s.
Proof.
  intros He e1 q.
  pose proof (digits_spec m) as [Dm1 Dm2].
  assert (Ee1 : e1 = Z.max (Zpos (digits2_pos m) + e - 53) (-1074)) by apply fexp_eq.
  assert (Hpn : 0 < 2 ^ (e1 - e)) by (apply Z.pow_pos_nonneg; lia).
  assert (Hq53 : q < 2 ^ 53).
  { unfold q. apply Z.div_lt_upper_bound; [exact Hpn|].
    rewrite <- Z.pow_add_r by lia.
    apply Z.lt_le_trans with (1 := Dm2). apply Z.pow_le_mono_r; lia. }
  split; [exact Hq53|].
  assert (Hq0 : 0 <= q) by (apply Z.div_pos; lia).
  unfold binary_round_aux.
  change (shr_fexp prec emax (Zpos m) e loc_Exact)
    with (shr (Build_shr_record (Zpos m) false false) e (e1 - e)).
  destruct (shr_exact_spec (Zpos m) e (e1 - e) ltac:(lia)) as (A1 & A2 & A3).
  destruct (shr (Build_shr_record (Zpos m) false false) e (e1 - e)) as [mrs' e'] eqn:E1.
  simpl in A1, A2, A3. rewrite Z.max_r in A1, A2, A3 by lia.
  replace e' with e1 by lia.
  cbv beta iota zeta.
  set (m1 := round_nearest_even (shr_m mrs') (loc_of_shr_record mrs')).
  assert (Hm1 : q <= m1 <= q + 1 /\ (Zpos m mod 2 ^ (e1 - e) = 0 -> m1 = q)).
  { unfold m1. rewrite A1. fold q. split.
    - destruct (loc_of_shr_record mrs') as [|[| |]]; simpl; try destruct (Z.even q); lia.
    - intro Hd. rewrite (A3 Hd). reflexivity. }
  exists m1. split; [tauto|]. split; [tauto|].
  assert (He1 : -1074 <= e1) by lia.
  change (shr_fexp prec emax m1 e1 loc_Exact)
    with (shr (Build_shr_record m1 false false) e1 (fexp prec emax (Zdigits2 m1 + e1) - e1)).
  destruct (shr_exact_spec m1 e1 (fexp prec emax (Zdigits2 m1 + e1) - e1) ltac:(lia))
    as (B1 & B2 & _).
  destruct (shr (Build_shr_record m1 false false) e1 (fexp prec emax (Zdigits2 m1 + e1) - e1))
    as [mrs'' e''] eqn:E2.
  simpl in B1, B2. cbv beta iota zeta.
  rewrite fexp_eq in B1, B2.
  destruct (Z.eq_dec m1 0) as [Z0'|Z0'].
  { rewrite Z0' in B1. rewrite Z.div_0_l in B1 by (apply Z.pow_nonzero; lia).
    rewrite B1, Z0'. reflexivity. }
  destruct (Z.eq_dec m1 (2 ^ 53)) as [Z53|Z53].
  { rewrite Z53 in B1, B2. change (Zdigits2 (2 ^ 53)) with 54 in B1, B2.
    replace (Z.max 0 (Z.max (54 + e1 - 53) (-1074) - e1)) with 1 in B1, B2 by lia.
    rewrite B1, B2, Z53. reflexivity. }
  destruct m1 as [|p|p] eqn:Em1; [lia| |lia].
  assert (Hd : Zpos (digits2_pos p) <= 53) by (apply digits_le; lia).
  change (Zdigits2 (Zpos p)) with (Zpos (digits2_pos p)) in B1, B2.
  replace (Z.max 0 (Z.max (Zpos (digits2_pos p) + e1 - 53) (-1074) - e1)) with 0 in B1, B2 by lia.
  rewrite Z.div_1_r in B1. rewrite B1.
  replace e'' with e1 by lia.
  rewrite (proj2 (Z.eqb_neq _ _) Z0'), (proj2 (Z.eqb_neq _ _) Z53). reflexivity.
Qed.

Lemma round_aux_rounds s (m : positive) e :
  e <= fexp prec emax (Zpos (digits2_pos m) + e) ->
  rounds_to s (val (Zpos m) e) (binary_round_aux prec emax s (Zpos m) e loc_Exact).
Proof.
  intros He.
  destruct (round_aux_char s m e He) as (Hq53 & m1 & Hm1 & Hex & ->).
  set (d := Zpos (digits2_pos m)) in *.
  set (e1 := fexp prec emax (d + e)) in *.
  set (n := e1 - e) in *.
  set (q := Zpos m / 2 ^ n) in *.
  pose proof (digits_spec m) as [Dm1 Dm2]. fold d in Dm1, Dm2.
  assert (Ee1 : e1 = Z.max (d + e - 53) (-1074)) by apply fexp_eq.
  assert (Hn : 0 <= n) by lia.
  assert (Hpn : 0 < 2 ^ n) by (apply Z.pow_pos_nonneg; lia).
  assert (Hq0 : 0 <= q) by (apply Z.div_pos; lia).
  assert (F1 : 2 ^ n * q <= Zpos m) by (apply Z.mul_div_le; lia).
  assert (F2 : Zpos m < 2 ^ n * Z.succ q) by (apply Z.mul_succ_div_gt; lia).
  assert (Ve : forall a, (val a e1 == val (a * 2 ^ n) e)%Q).
  { intro a. unfold e1 at 1. replace (fexp prec emax (d + e)) with (e + n) by (unfold n; lia).
    apply val_shift. exact Hn. }
  set (x := val (Zpos m) e).
  assert (VX1 : (val q e1 <= x)%Q).
  { rewrite Ve. apply val_le. lia. }
  assert (VX2 : (x < val (q + 1) e1)%Q).
  { rewrite Ve. apply val_lt. lia. }
  assert (VX3 : Zpos m mod 2 ^ n = 0 -> (val q e1 == x)%Q).
  { intro Hz. rewrite Ve. unfold x. f_equal.
    apply Z.div_exact in Hz; [|lia]. unfold q. rewrite Hz at 2. rewrite Z.mul_comm. reflexivity. }
  assert (VX4 : Zpos m mod 2 ^ n <> 0 -> (val q e1 < x)%Q).
  { intro Hz. rewrite Ve. apply val_lt.
    destruct (Z.eq_dec (q * 2 ^ n) (Zpos m)) as [Eq|Ne]; [|lia].
    exfalso. apply Hz. rewrite <- Eq. apply Z.mod_mul. lia. }
  assert (NORM : e1 <> -1074 -> e1 = d + e - 53 /\ 2 ^ 52 <= q /\ (qpow2 (52 + e1) <= x)%Q).
  { intro Hne. assert (E : e1 = d + e - 53) by lia. split; [exact E|]. split.
    - unfold q. apply Z.div_le_lower_bound; [lia|].
      rewrite <- Z.pow_add_r by lia. replace (n + 52) with (d - 1) by lia. exact Dm1.
    - unfold x. replace (52 + e1) with ((d - 1) + e) by lia.
      apply val_above; lia. }
  assert (FLOOR : forall y, rep y -> (y <= x)%Q -> (y <= val q e1)%Q).
  { intros y (my & ey & Hmy & Hey & Hy) Hyx. rewrite Hy in *.
    destruct (Z.le_gt_cases e1 ey) as [Hle|Hgt].
    - assert (Hs : (val my ey == val (my * 2 ^ (ey - e1)) e1)%Q).
      { replace ey with (e1 + (ey - e1)) at 1 by ring. apply val_shift. lia. }
      rewrite Hs in *. apply val_le.
      assert (my * 2 ^ (ey - e1) < q + 1); [|lia].
      apply (val_lt _ _ e1). apply Qle_lt_trans with x; assumption.
    - destruct (NORM ltac:(lia)) as (_ & Hq52 & _).
      apply Qle_trans with (qpow2 (53 + ey)).
      + apply Qlt_le_weak. apply val_below; lia.
      + apply Qle_trans with (qpow2 (52 + e1)); [apply qpow2_le; lia|].
        apply val_above; lia. }
  assert (CEIL : forall y, rep y -> (x <= y)%Q -> (val m1 e1 <= y)%Q).
  { intros y Hrep Hxy. destruct (Z.eq_dec (Zpos m mod 2 ^ n) 0) as [Hz|Hz].
    - rewrite (Hex Hz), (VX3 Hz). exact Hxy.
    - apply Qle_trans with (val (q + 1) e1); [apply val_le; lia|].
      destruct Hrep as (my & ey & Hmy & Hey & Hy). rewrite Hy in *.
      destruct (Z.le_gt_cases e1 ey) as [Hle|Hgt].
      + assert (Hs : (val my ey == val (my * 2 ^ (ey - e1)) e1)%Q).
        { replace ey with (e1 + (ey - e1)) at 1 by ring. apply val_shift. lia. }
        rewrite Hs in *. apply val_le.
        assert (q < my * 2 ^ (ey - e1)); [|lia].
        apply (val_lt _ _ e1). apply Qlt_le_trans with x; [apply VX4; exact Hz|exact Hxy].
      + exfalso. destruct (NORM ltac:(lia)) as (_ & _ & Hx).
        assert (H1 : (val my ey < qpow2 (53 + ey))%Q) by (apply val_below; lia).
        assert (H2 : (qpow2 (53 + ey) <= qpow2 (52 + e1))%Q) by (apply qpow2_le; lia).
        apply (Qlt_irrefl x). apply Qle_lt_trans with (val my ey); [exact Hxy|].
        apply Qlt_le_trans with (qpow2 (53 + ey)); [exact H1|].
        apply Qle_trans with (qpow2 (52 + e1)); assumption. }
  assert (TOP : forall y, rep y -> (val m1 e1 <= y)%Q -> (val m1 e1 < qpow2 1024)%Q).
  { intros y Hy H. apply Qle_lt_trans with y; [exact H|]. apply rep_below. exact Hy. }
  assert (He1 : -1074 <= e1) by lia.
  assert (V53 : (val (Zpos (Z.to_pos (2 ^ 52))) (e1 + 1) == val m1 e1)%Q ->
                m1 = 2 ^ 53 -> True) by auto.
  clear V53.
  destruct (Z.eqb_spec m1 0) as [Z0'|Z0'].
  { split; [reflexivity|]. split.
    - intros y Hy Hyx. exfalso.
      assert (Hq : q = 0) by lia.
      pose proof (FLOOR y Hy Hyx) as H. rewrite Hq in H.
      unfold val in H. simpl in H. rewrite Qmult_0_l in H.
      apply (Qlt_irrefl 0). apply Qlt_le_trans with y; [apply rep_pos; exact Hy|exact H].
    - intros. left. reflexivity. }
  destruct (Z.eqb_spec m1 (2 ^ 53)) as [Z53|Z53].
  { assert (Vt : (val (Zpos (Z.to_pos (2 ^ 52))) (e1 + 1) == val m1 e1)%Q).
    { rewrite Z53. change (Zpos (Z.to_pos (2 ^ 52))) with (2 ^ 52).
      rewrite val_shift by lia. reflexivity. }
    destruct (Z.leb_spec (e1 + 1) 971) as [Hl|Hl].
    - split; [apply valid_finite; [rewrite fexp_eq; change (Zpos (digits2_pos (Z.to_pos (2 ^ 52)))) with 53; lia|exact Hl]|].
      split.
      + intros y Hy Hyx. right. do 2 eexists. split; [reflexivity|].
        rewrite Vt. apply Qle_trans with (val q e1); [apply FLOOR; assumption|apply val_le; lia].
      + intros y Hy Hxy. right. do 2 eexists. split; [reflexivity|].
        rewrite Vt. apply CEIL; assumption.
    - split; [reflexivity|]. split.
      + intros. left. reflexivity.
      + intros y Hy Hxy. exfalso.
        pose proof (TOP y Hy (CEIL y Hy Hxy)) as H.
        rewrite Z53, val_pow in H by lia. apply qpow2_lt_inv in H. lia. }
  assert (Hm1p : 0 < m1) by lia.
  assert (Hm1d : Zpos (Z.to_pos m1) = m1) by (apply Z2Pos.id; lia).
  destruct (Z.leb_spec e1 971) as [Hl|Hl].
  - split.
    + apply valid_finite; [|exact Hl]. rewrite fexp_eq.
      destruct (Z.eq_dec e1 (-1074)) as [Emin|Emin].
      * assert (Zpos (digits2_pos (Z.to_pos m1)) <= 53) by (apply digits_le; lia). lia.
      * destruct (NORM Emin) as (_ & Hq52 & _).
        assert (Zpos (digits2_pos (Z.to_pos m1)) = 53) by (apply digits_unique; split; simpl; lia).
        lia.
    + split.
      * intros y Hy Hyx. right. do 2 eexists. split; [reflexivity|]. rewrite Hm1d.
        apply Qle_trans with (val q e1); [apply FLOOR; assumption|apply val_le; lia].
      * intros y Hy Hxy. right. do 2 eexists. split; [reflexivity|]. rewrite Hm1d.
        apply CEIL; assumption.
  - split; [reflexivity|]. split.
    + intros. left. reflexivity.
    + intros y Hy Hxy. exfalso.
      destruct (NORM ltac:(lia)) as (_ & Hq52 & _).
      pose proof (TOP y Hy (CEIL y Hy Hxy)) as H.
      assert (H2 : (qpow2 (52 + e1) <= val m1 e1)%Q) by (apply val_above; lia).
      assert (H3 : (qpow2 (52 + e1) < qpow2 1024)%Q) by (apply Qle_lt_trans with (val m1 e1); assumption).
      apply qpow2_lt_inv in H3. lia.
Qed.

Lemma round_aux_shape s (m : positive) e :
  e <= fexp prec emax (Zpos (digits2_pos m) + e) ->
  let R := binary_round_aux prec emax s (Zpos m) e loc_Exact in
  R = S754_zero s \/ R = S754_infinity s \/ exists m' e', R = S754_finite s m' e'.
Proof.
  intros He R. unfold R.
  destruct (round_aux_char s m e He) as (_ & m1 & _ & _ & ->).
  destruct (m1 =? 0); [auto|].
  destruct (m1 =? 2 ^ 53); [destruct (_ + 1 <=? 971)|destruct (_ <=? 971)]; eauto.
Qed.

(* ---------------------------------------------------------------- *)
(** Rounding, by value. *)

Definition is_fin (f : spec_float) : bool :=
  match f with S754_zero _ | S754_finite _ _ _ => true | _ => false end.

(** Zero and the values a double can hold, of either sign. *)
Definition repz (y : Q) : Prop := (y == 0)%Q \/ rep y \/ rep (- y).

(** [R] is a valid double that is no representable value away from the
    real [x]: every double below [x] is below [R], every double above [x]
    is above [R], and [R] overflows only on the side of [x]. *)
Definition approx (x : Q) (R : spec_float) : Prop :=
  valid R = true /\ R <> S754_nan /\
  forall y, repz y ->
    ((y <= x)%Q -> R <> S754_infinity true /\ (is_fin R = true -> (y <= fval R)%Q)) /\
    ((x <= y)%Q -> R <> S754_infinity false /\ (is_fin R = true -> (fval R <= y)%Q)).

Lemma rep_Qeq y y' : (y == y')%Q -> rep y -> rep y'.
Proof. intros E (my & ey & H1 & H2 & H3). exists my, ey. rewrite <- E. auto. Qed.

Lemma repz_Qeq y y' : (y == y')%Q -> repz y -> repz y'.
Proof.
  intros E [H|[H|H]]; [left; rewrite <- E; exact H|right; left; eapply rep_Qeq; eauto|].
  right; right. eapply rep_Qeq; [|exact H]. rewrite E. reflexivity.
Qed.

Lemma repz_opp y : repz y -> repz (- y).
Proof.
  intros [H|[H|H]].
  - left. rewrite H. reflexivity.
  - right; right. eapply rep_Qeq; [|exact H]. ring.
  - right; left. exact H.
Qed.

Lemma rep_repz y : rep y -> repz y.
Proof. intro H. right; left; exact H. Qed.

Lemma approx_Qeq x x' R : (x == x')%Q -> approx x R -> approx x' R.
Proof.
  intros E (H1 & H2 & H3). split; [exact H1|]. split; [exact H2|].
  intros y Hy. destruct (H3 y Hy) as [A B]. rewrite <- E. auto.
Qed.

Lemma approx_fin x R : approx x R -> repz x -> is_fin R = true.
Proof.
  intros (_ & Hn & H) Hx. destruct (H x Hx) as [A B].
  destruct (A (Qle_refl x)) as [A1 _]. destruct (B (Qle_refl x)) as [B1 _].
  destruct R as [|[|]| |]; try reflexivity; congruence.
Qed.

Lemma approx_exact x R : approx x R -> repz x -> is_fin R = true /\ (fval R == x)%Q.
Proof.
  intros HA Hx. pose proof (approx_fin x R HA Hx) as Hf. split; [exact Hf|].
  destruct HA as (_ & _ & H). destruct (H x Hx) as [A B].
  apply Qle_antisym; [apply (proj2 (B (Qle_refl x)) Hf)|apply (proj2 (A (Qle_refl x)) Hf)].
Qed.

Lemma approx_between x R lo hi : approx x R -> repz lo -> repz hi ->
  (lo <= x)%Q -> (x <= hi)%Q -> is_fin R = true /\ (lo <= fval R)%Q /\ (fval R <= hi)%Q.
Proof.
  intros (Hv & Hn & H) Hlo Hhi H1 H2.
  destruct (H lo Hlo) as [[A1 A2] _]; [exact H1|].
  destruct (H hi Hhi) as [_ [B1 B2]]; [exact H2|].
  assert (Hf : is_fin R = true) by (destruct R as [|[|]| |]; try reflexivity; congruence).
  auto.
Qed.

Lemma approx_zero s x : (x == 0)%Q -> approx x (S754_zero s).
Proof.
  intro E. split; [reflexivity|]. split; [discriminate|].
  intros y _. simpl. rewrite E. split; intro H; (split; [discriminate|intros _; exact H]).
Qed.

Lemma approx_self R : valid R = true -> is_fin R = true -> approx (fval R) R.
Proof.
  intros Hv Hf. split; [exact Hv|]. split; [destruct R; simpl in Hf; congruence|].
  intros y _. split; intro H; (split; [destruct R; simpl in Hf; congruence|intros _; exact H]).
Qed.

Lemma fval_nonneg m e : (0 <= fval (S754_finite false m e))%Q.
Proof. simpl. apply Qlt_le_weak, val_pos. lia. Qed.

Lemma fval_nonpos m e : (fval (S754_finite true m e) <= 0)%Q.
Proof.
  simpl. pose proof (val_pos (Zpos m) e ltac:(lia)). lra.
Qed.

Lemma rep_sign y : rep y -> (0 < y)%Q.
Proof. apply rep_pos. Qed.

Lemma repz_pos y : repz y -> (0 < y)%Q -> rep y.
Proof.
  intros [H|[H|H]] Hy; [rewrite H in Hy; discriminate|exact H|].
  apply rep_pos in H. lra.
Qed.

Lemma rounds_approx s x R : (0 < x)%Q -> rounds_to s x R ->
  (R = S754_zero s \/ R = S754_infinity s \/ exists m e, R = S754_finite s m e) ->
  approx (if s then - x else x) R.
Proof.
  intros Hx (Hv & Hfl & Hce) Hsh. split; [exact Hv|].
  split; [destruct Hsh as [->|[->|(m & e & ->)]]; discriminate|].
  intros y Hy. destruct s.
  - split; intro Hyx.
    + assert (Hr : rep (- y)) by (apply repz_pos; [apply repz_opp; exact Hy|lra]).
      destruct (Hce (- y)%Q Hr ltac:(lra)) as [->|(m' & e' & -> & Hle)].
      * split; [discriminate|intros _; simpl; lra].
      * split; [discriminate|intros _; simpl; lra].
    + split; [destruct Hsh as [->|[->|(m & e & ->)]]; discriminate|intro Hf].
      destruct (Qlt_le_dec y 0) as [Hneg|Hpos].
      * assert (Hr : rep (- y)) by (apply repz_pos; [apply repz_opp; exact Hy|lra]).
        destruct (Hfl (- y)%Q Hr ltac:(lra)) as [->|(m' & e' & -> & Hle)]; [discriminate|].
        simpl. lra.
      * destruct Hsh as [->|[->|(m & e & ->)]]; [simpl; exact Hpos|discriminate|].
        pose proof (fval_nonpos m e). lra.
  - split; intro Hyx.
    + split; [destruct Hsh as [->|[->|(m & e & ->)]]; discriminate|intro Hf].
      destruct (Qlt_le_dec 0 y) as [Hpos|Hneg].
      * destruct (Hfl y (repz_pos y Hy Hpos) Hyx) as [->|(m' & e' & -> & Hle)]; [discriminate|].
        exact Hle.
      * destruct Hsh as [->|[->|(m & e & ->)]]; [simpl; exact Hneg|discriminate|].
        pose proof (fval_nonneg m e). lra.
    + destruct (Hce y (repz_pos y Hy ltac:(lra)) Hyx) as [->|(m' & e' & -> & Hle)].
      * split; [discriminate|intros _; simpl; lra].
      * split; [discriminate|intros _; exact Hle].
Qed.

Lemma pos_iter_xO m p : Zpos (Pos.iter xO m p) = Zpos m * 2 ^ Zpos p.
Proof.
  induction p as [|p IH] using Pos.peano_ind.
  - simpl. lia.
  - rewrite Pos.iter_succ, Pos2Z.inj_succ, Z.pow_succ_r by lia.
    rewrite (Pos2Z.inj_xO (Pos.iter xO m p)), IH. ring.
Qed.

Lemma round_approx (s : bool) (m : positive) (e : Z) :
  approx (if s then - val (Zpos m) e else val (Zpos m) e) (binary_round prec emax s m e).
Proof.
  unfold binary_round, shl_align.
  pose proof (digits_spec m) as [D1 D2].
  set (d := Zpos (digits2_pos m)) in *.
  assert (Hd : 1 <= d) by (unfold d; lia).
  set (f := fexp prec emax (d + e)).
  destruct (f - e) as [|p|p] eqn:E.
  - apply rounds_approx; [apply val_pos; lia| |apply round_aux_shape]; (apply round_aux_rounds || idtac); unfold f, d in E; lia.
  - apply rounds_approx; [apply val_pos; lia| |apply round_aux_shape]; (apply round_aux_rounds || idtac); unfold f, d in E; lia.
  - cbv beta iota zeta.
    assert (Hm' : Zpos (Pos.iter xO m p) = Zpos m * 2 ^ Zpos p) by apply pos_iter_xO.
    assert (Hpp : 0 < 2 ^ Zpos p) by (apply Z.pow_pos_nonneg; lia).
    assert (Hdig : Zpos (digits2_pos (Pos.iter xO m p)) = d + Zpos p).
    { apply digits_unique. rewrite Hm'.
      replace (d + Zpos p - 1) with ((d - 1) + Zpos p) by ring.
      rewrite !Z.pow_add_r by lia. split; nia. }
    assert (Hv : (val (Zpos (Pos.iter xO m p)) f == val (Zpos m) e)%Q).
    { rewrite Hm', <- val_shift by lia. replace (f + Zpos p) with e by lia. reflexivity. }
    assert (Hf : f <= fexp prec emax (Zpos (digits2_pos (Pos.iter xO m p)) + f)).
    { rewrite Hdig. replace (d + Zpos p + f) with (d + e) by lia. unfold f. lia. }
    eapply approx_Qeq; [|apply (rounds_approx s (val (Zpos (Pos.iter xO m p)) f));
      [apply val_pos; lia|apply round_aux_rounds; exact Hf|apply round_aux_shape; exact Hf]].
    destruct s; rewrite Hv; reflexivity.
Qed.

Lemma normalize_approx z e : approx (val z e) (binary_normalize prec emax z e false).
Proof.
  destruct z as [|m|m]; simpl binary_normalize.
  - apply approx_zero. unfold val. simpl. ring.
  - apply (round_approx false).
  - eapply approx_Qeq; [|apply (round_approx true)].
    rewrite val_opp. reflexivity.
Qed.

Lemma of_Z_exp_approx m e : approx (val m e) (of_Z_exp m e).
Proof. apply normalize_approx. Qed.

Lemma valid_canonical s m e : valid (S754_finite s m e) = true ->
  e = Z.max (Zpos (digits2_pos m) + e - 53) (-1074) /\ e <= 971.
Proof.
  unfold valid, valid_binary, bounded, canonical_mantissa.
  rewrite andb_true_iff, Z.eqb_eq, Z.leb_le, fexp_eq. intros [H1 H2].
  split; [lia|exact H2].
Qed.

Lemma valid_opp s m e : valid (S754_finite s m e) = valid (S754_finite (negb s) m e).
Proof. reflexivity. Qed.

Lemma digits_mul a b :
  Zpos (digits2_pos a) + Zpos (digits2_pos b) - 1 <= Zpos (digits2_pos (a * b)).
Proof.
  pose proof (digits_spec a) as [A1 _]. pose proof (digits_spec b) as [B1 _].
  replace (Zpos (digits2_pos a) + Zpos (digits2_pos b) - 1)
    with ((Zpos (digits2_pos a) - 1 + (Zpos (digits2_pos b) - 1)) + 1) by ring.
  apply digits_ge; [lia|].
  rewrite Z.pow_add_r, Pos2Z.inj_mul by lia.
  apply Z.mul_le_mono_nonneg; try lia; apply Z.pow_nonneg; lia.
Qed.

Lemma fval_finite s m e :
  (fval (S754_finite s m e) == if s then - val (Zpos m) e else val (Zpos m) e)%Q.
Proof. reflexivity. Qed.

Lemma mul_approx x y : valid x = true -> valid y = true -> is_fin x = true -> is_fin y = true ->
  approx (fval x * fval y) (mul x y).
Proof.
  intros Vx Vy Fx Fy.
  destruct x as [sx| | |sx mx ex]; try discriminate;
  destruct y as [sy| | |sy my ey]; try discriminate;
  unfold mul, SFmul.
  - apply approx_zero. simpl. ring.
  - apply approx_zero. simpl. ring.
  - apply approx_zero. simpl. ring.
  - apply valid_canonical in Vx, Vy.
    pose proof (digits_mul mx my) as Hd.
    pose proof (digits_spec mx) as [_ Dx]. pose proof (digits_spec my) as [_ Dy].
    assert (Hdx : Zpos (digits2_pos mx) <= 53) by lia.
    assert (Hdy : Zpos (digits2_pos my) <= 53) by lia.
    assert (He : ex + ey <= fexp prec emax (Zpos (digits2_pos (mx * my)) + (ex + ey))).
    { rewrite fexp_eq. lia. }
    eapply approx_Qeq; [|apply (rounds_approx (xorb sx sy) (val (Zpos (mx * my)) (ex + ey)));
      [apply val_pos; lia|apply round_aux_rounds; exact He|apply round_aux_shape; exact He]].
    rewrite !fval_finite, Pos2Z.inj_mul.
    destruct sx, sy; simpl xorb; cbv iota; rewrite <- (val_mul (Zpos mx) ex (Zpos my) ey); ring.
Qed.

Lemma shl_align_le m ex ez : ez <= ex ->
  Zpos (fst (shl_align m ex ez)) = Zpos m * 2 ^ (ex - ez).
Proof.
  intro H. unfold shl_align.
  destruct (ez - ex) as [|p|p] eqn:E; simpl fst.
  - replace (ex - ez) with 0 by lia. ring.
  - lia.
  - rewrite pos_iter_xO. f_equal. f_equal. lia.
Qed.

Lemma cond_Zopp_val s m ex ez : ez <= ex ->
  (val (cond_Zopp s (Zpos (fst (shl_align m ex ez)))) ez == fval (S754_finite s m ex))%Q.
Proof.
  intro H. rewrite shl_align_le by exact H. rewrite fval_finite.
  assert (E : (val (Zpos m * 2 ^ (ex - ez)) ez == val (Zpos m) ex)%Q).
  { rewrite <- val_shift by lia. replace (ez + (ex - ez)) with ex by ring. reflexivity. }
  destruct s; simpl cond_Zopp; cbv iota; [rewrite <- val_opp|]; rewrite E; reflexivity.
Qed.

Lemma add_approx x y : valid x = true -> valid y = true -> is_fin x = true -> is_fin y = true ->
  approx (fval x + fval y) (add x y).
Proof.
  intros Vx Vy Fx Fy.
  destruct x as [sx| | |sx mx ex]; try discriminate;
  destruct y as [sy| | |sy my ey]; try discriminate;
  unfold add, SFadd.
  - destruct sx, sy; apply approx_zero; simpl; ring.
  - eapply approx_Qeq; [|apply approx_self; assumption]. simpl. ring.
  - eapply approx_Qeq; [|apply approx_self; assumption]. change (fval (S754_zero sy)) with 0%Q. ring.
  - eapply approx_Qeq; [|apply normalize_approx].
    rewrite <- val_add, !cond_Zopp_val by lia. reflexivity.
Qed.

Lemma sub_approx x y : valid x = true -> valid y = true -> is_fin x = true -> is_fin y = true ->
  approx (fval x - fval y) (sub x y).
Proof.
  intros Vx Vy Fx Fy.
  destruct x as [sx| | |sx mx ex]; try discriminate;
  destruct y as [sy| | |sy my ey]; try discriminate;
  unfold sub, SFsub.
  - destruct sx, sy; apply approx_zero; simpl; ring.
  - eapply approx_Qeq; [|apply approx_self; [rewrite <- valid_opp; exact Vy|reflexivity]].
    rewrite !fval_finite. destruct sy; simpl; ring.
  - eapply approx_Qeq; [|apply approx_self; assumption]. change (fval (S754_zero sy)) with 0%Q. ring.
  - eapply approx_Qeq; [|apply normalize_approx].
    unfold Z.sub. rewrite <- val_add, <- val_opp, !cond_Zopp_val by lia. ring.
Qed.

(* ---------------------------------------------------------------- *)
(** Comparisons. *)

Lemma compare_refl f : f <> S754_nan -> SFcompare f f = Some Eq.
Proof.
  intro H. destruct f as [s|s| |s m e]; [destruct s; reflexivity|destruct s; reflexivity|congruence|].
  simpl. rewrite Z.compare_refl.
  change (Pos.compare_cont Eq m m) with (Pos.compare m m). rewrite Pos.compare_refl.
  destruct s; reflexivity.
Qed.

Lemma compare_swap f g : SFcompare g f = option_map CompOpp (SFcompare f g).
Proof.
  destruct f as [s|s| |s m e], g as [s'|s'| |s' m' e'];
  try destruct s; try destruct s'; try reflexivity; simpl;
  rewrite (Z.compare_antisym e e');
  destruct (e ?= e')%Z; simpl; try reflexivity;
  pose proof (Pos.compare_cont_antisym m m' Eq) as H; simpl in H;
  change PosDef.Pos.compare_cont with Pos.compare_cont;
  rewrite <- H; destruct (Pos.compare_cont Eq m m'); reflexivity.
Qed.

(** Python's [min(a, b)] is never above [b], unless one of them is NaN. *)
Lemma leb_min a b : a <> S754_nan -> b <> S754_nan ->
  leb (if ltb b a then b else a) b = true.
Proof.
  intros Ha Hb. unfold ltb, leb, SFltb, SFleb.
  destruct (SFcompare b a) as [[| |]|] eqn:E.
  - rewrite compare_swap, E. reflexivity.
  - rewrite compare_refl by exact Hb. reflexivity.
  - rewrite compare_swap, E. reflexivity.
  - exfalso. destruct a, b; simpl in E; try congruence; destruct s; try discriminate; destruct s0; discriminate.
Qed.

End Binary64.

(** ** [RetryClient] (src/agents/player_P02/resilience.py)

    Python floats are IEEE-754 doubles, [spec_float] of [Binary64] with
    the round-to-nearest-even operations.  Python's [float * int] first
    converts the [int], which raises [OverflowError] once it rounds past
    the largest finite double, that is from [2^1024 - 2^970] on;
    [int_to_float] returns [None] there.  [random.random()] returns
    [j * 2^-53] for an integer [0 <= j < 2^53] ([random_float j]); the
    oracle [rnd : nat -> spec_float] is the draw made by [_calculate_delay]
    for a given attempt.  [Sleep d] records the value handed to
    [asyncio.sleep].  The logger, [last_error] and the request payload
    have no influence on the result and are not modelled. *)
Module Retry.

Import Binary64.
Local Open Scope Q_scope.

Record config := mkConfig {
  max_retries : Z;
  backoff_strategy : string;
  initial_delay : spec_float;
  max_delay : spec_float
}.

(** [float(n)] of a Python [int] below the overflow bound. *)
Definition float_of_Z (n : Z) : spec_float := of_Z_exp n 0.

(** The double [random.random()] returns for the integer [j]. *)
Definition random_float (j : Z) : spec_float := of_Z_exp j (-53).

(** Python's two-argument [min]: the second argument replaces the first
    only when it is strictly smaller; a comparison with NaN is false. *)
Definition py_min (a b : spec_float) : spec_float := if ltb b a then b else a.

Definition FLOAT_OVERFLOW : Z := (2 ^ 1024 - 2 ^ 970)%Z.

Definition int_to_float (n : Z) : option spec_float :=
  if (FLOAT_OVERFLOW <=? Z.abs n)%Z then None else Some (float_of_Z n).

(** [delay = self.initial_delay * (2 ** attempt)] (exponential) or
    [self.initial_delay * (attempt + 1)]; [None] is the [OverflowError] of
    the conversion of the [int]. *)
Definition base_delay (c : config) (attempt : nat) : option spec_float :=
  let factor :=
    if String.eqb (backoff_strategy c) "exponential"
    then int_to_float (2 ^ Z.of_nat attempt)%Z
    else int_to_float (Z.of_nat attempt + 1)%Z in
  match factor with
  | None => None
  | Some f => Some (mul (initial_delay c) f)
  end.

(** [jitter = delay * 0.25 * (random.random() * 2 - 1)], then
    [delay + jitter]. *)
Definition with_jitter (delay u : spec_float) : spec_float :=
  let jitter := mul (mul delay (of_Z_exp 1 (-2))) (sub (mul u (float_of_Z 2)) (float_of_Z 1)) in
  add delay jitter.

(** [_calculate_delay]: [min(delay, self.max_delay)]. *)
Definition calculate_delay (c : config) (attempt : nat) (u : spec_float)
    : option spec_float :=
  match base_delay c attempt with
  | None => None
  | Some delay => Some (py_min (with_jitter delay u) (max_delay c))
  end.

Record response := { status_code : Z }.

(** What one [client.post] attempt does. *)
Inductive attempt_outcome :=
| Got (r : response)
| TimeoutE
| ConnectE
| OtherE.

Inductive event :=
| Attempt (k : nat)
| Sleep (d : spec_float).

(** [Returned None] is [return None]; [Raised] is an exception escaping
    [post]. *)
Inductive post_result :=
| Returned (r : option response)
| Raised.

(** The body of [for attempt in range(self.max_retries + 1)]: the three
    [except] clauses only set [last_error] and a log line, so they are one
    branch here. *)
Fixpoint post_loop (c : config) (rnd : nat -> spec_float) (outc : nat -> attempt_outcome)
    (attempts : list nat) : post_result * list event :=
  match attempts with
  | [] => (Returned None, [])
  | attempt :: rest =>
      match outc attempt with
      | Got r => (Returned (Some r), [Attempt attempt])
      | TimeoutE | ConnectE | OtherE =>
          if (Z.of_nat attempt <? max_retries c)%Z then
            match calculate_delay c attempt (rnd attempt) with
            | None => (Raised, [Attempt attempt])
            | Some d =>
                let (res, tr) := post_loop c rnd outc rest in
                (res, Attempt attempt :: Sleep d :: tr)
            end
          else
            let (res, tr) := post_loop c rnd outc rest in
            (res, Attempt attempt :: tr)
      end
  end.

Definition post (c : config) (rnd : nat -> spec_float) (outc : nat -> attempt_outcome)
    : post_result * list event :=
  post_loop c rnd outc (seq 0 (Z.to_nat (max_retries c + 1))).

Definition is_attempt (e : event) : bool :=
  match e with Attempt _ => true | Sleep _ => false end.

Definition attempts_made (tr : list event) : nat :=
  List.length (filter is_attempt tr).


(** The configuration of [RetryClient(max_retries=m)] with its default
    [initial_delay=1.0] and [max_delay=30.0]. *)
Definition default_config (m : Z) : config :=
  mkConfig m "exponential" (float_of_Z 1) (float_of_Z 30).


Lemma post_loop_attempts c rnd outc attempts :
  (attempts_made (snd (post_loop c rnd outc attempts)) <= List.length attempts)%nat.
Proof.
  unfold attempts_made.
  induction attempts as [|k rest IH]; simpl; [lia|].
  destruct (outc k); simpl; try lia;
  (destruct (Z.of_nat k <? max_retries c)%Z;
   [destruct (calculate_delay c k (rnd k)); simpl; [|lia]|]);
  destruct (post_loop c rnd outc rest) as [res tr]; simpl in *; lia.
Qed.


Lemma pow2_small (k : nat) : (k < 1024)%nat ->
  (0 <= 2 ^ Z.of_nat k < FLOAT_OVERFLOW)%Z.
Proof.
  intro Hk. split; [apply Z.pow_nonneg; lia|].
  apply Z.le_lt_trans with (2 ^ 1023)%Z.
  - apply Z.pow_le_mono_r; lia.
  - unfold FLOAT_OVERFLOW. vm_compute. reflexivity.
Qed.

Lemma int_to_float_small (n : Z) : (0 <= n < FLOAT_OVERFLOW)%Z ->
  int_to_float n = Some (float_of_Z n).
Proof.
  intro H. unfold int_to_float.
  replace (FLOAT_OVERFLOW <=? Z.abs n)%Z with false by (symmetry; apply Z.leb_gt; lia).
  reflexivity.
Qed.

(** An integer of at most 53 bits times a power of two in range is a
    double, represented exactly. *)
Lemma repz_int (z e : Z) : (- 2 ^ 53 < z < 2 ^ 53)%Z -> (-1074 <= e <= 971)%Z ->
  repz (val z e).
Proof.
  intros Hz He. destruct (Z.lt_trichotomy z 0) as [Hn|[->|Hp]].
  - right; right. exists (- z)%Z, e. split; [lia|]. split; [lia|].
    rewrite val_opp. reflexivity.
  - left. unfold val. simpl. ring.
  - right; left. exists z, e. split; [lia|]. split; [lia|]. reflexivity.
Qed.

(** A mantissa [c] of [w] bits times [2^f] is a double as long as it
    stays below [2^1024]. *)
Lemma repz_small (c f w : Z) : (0 < c < 2 ^ w)%Z -> (0 <= w <= 53)%Z ->
  (-1074 <= f <= 1024 - w)%Z -> repz (val c f).
Proof.
  intros Hc Hw Hf.
  assert (Hw53 : (2 ^ w <= 2 ^ 53)%Z) by (apply Z.pow_le_mono_r; lia).
  destruct (Z.le_gt_cases f 971) as [Hl|Hg].
  - apply repz_int; lia.
  - right; left. apply (rep_shift c f (f - 971)); try lia.
    assert (H1 : (2 ^ (f - 971) <= 2 ^ (53 - w))%Z) by (apply Z.pow_le_mono_r; lia).
    assert (H2 : (2 ^ w * 2 ^ (53 - w) = 2 ^ 53)%Z)
      by (rewrite <- Z.pow_add_r by lia; f_equal; ring).
    assert (H3 : (0 < 2 ^ (f - 971))%Z) by (apply Z.pow_pos_nonneg; lia).
    nia.
Qed.

(** [approx] at a double: the operation is exact. *)
Lemma exact_step x R : approx x R -> repz x ->
  is_fin R = true /\ valid R = true /\ fval R == x.
Proof.
  intros HA Hx. destruct (approx_exact x R HA Hx) as [H1 H2].
  split; [exact H1|]. split; [exact (proj1 HA)|exact H2].
Qed.

Lemma float_of_Z_exact (n : Z) : (- 2 ^ 53 < n < 2 ^ 53)%Z ->
  is_fin (float_of_Z n) = true /\ valid (float_of_Z n) = true /\ fval (float_of_Z n) == inject_Z n.
Proof.
  intro Hn. destruct (exact_step (val n 0) (float_of_Z n) (of_Z_exp_approx n 0)
                        (repz_int n 0 Hn ltac:(lia))) as (H1 & H2 & H3).
  split; [exact H1|]. split; [exact H2|]. rewrite H3. unfold val. simpl. ring.
Qed.

Lemma val_quarter (a : Z) (e : Z) (c : Z) :
  val a e * (c # 4) == val (a * c) (e - 2).
Proof.
  unfold val. replace e with ((e - 2) + 2)%Z at 1 by ring.
  rewrite qpow2_add, (qpow2_nat 2 ltac:(lia)), inject_Z_mult.
  assert (Ec : (c # 4) == inject_Z c * (1 # 4)) by (unfold Qeq; simpl; lia).
  rewrite Ec. replace (e - 2 + 2 - 2)%Z with (e - 2)%Z by ring.
  change (inject_Z (2 ^ 2)) with (4 # 1). ring.
Qed.

(** The jitter step on a finite base delay [b] of value [X]: the result
    is within 25% of [X], when [X/4], [3X/4] and [5X/4] are doubles. *)
Lemma jitter_core (b : spec_float) (X : Q) (j : Z) :
  valid b = true -> is_fin b = true -> fval b == X -> 0 <= X ->
  repz (X * (1 # 4)) -> repz (X * (3 # 4)) -> repz (X * (5 # 4)) ->
  (0 <= j < 2 ^ 53)%Z ->
  is_fin (with_jitter b (random_float j)) = true /\
  X * (3 # 4) <= fval (with_jitter b (random_float j)) <= X * (5 # 4).
Proof.
  intros Vb Fb Eb HX R1 R3 R5 Hj.
  assert (E52 : (2 ^ 52 = 4503599627370496)%Z) by reflexivity.
  assert (E53 : (2 ^ 53 = 9007199254740992)%Z) by reflexivity.
  (* u = random.random() *)
  destruct (exact_step _ _ (of_Z_exp_approx j (-53)) (repz_int j (-53) ltac:(lia) ltac:(lia)))
    as (Fu & Vu & Eu).
  fold (random_float j) in Fu, Vu, Eu.
  destruct (float_of_Z_exact 2 ltac:(lia)) as (F2 & V2 & E2).
  destruct (float_of_Z_exact 1 ltac:(lia)) as (F1 & V1 & E1).
  (* w = u * 2 *)
  assert (Ew : fval (random_float j) * fval (float_of_Z 2) == val j (-52)).
  { rewrite Eu, E2. replace (-52)%Z with (-53 + 1)%Z by reflexivity.
    rewrite val_shift by lia. unfold val. rewrite inject_Z_mult.
    change (inject_Z (2 ^ 1)) with (inject_Z 2). ring. }
  pose proof (mul_approx _ _ Vu V2 Fu F2) as Aw. apply (approx_Qeq _ _ _ Ew) in Aw.
  destruct (exact_step _ _ Aw (repz_int j (-52) ltac:(lia) ltac:(lia))) as (Fw & Vw & Ew').
  (* v = w - 1 *)
  set (w := mul (random_float j) (float_of_Z 2)) in *.
  assert (Ev : fval w - fval (float_of_Z 1) == val (j - 2 ^ 52) (-52)).
  { rewrite Ew', E1. unfold Z.sub. rewrite <- val_add, <- val_opp.
    replace (val (2 ^ 52) (-52)) with (val (2 ^ 52) (-52)) by reflexivity.
    rewrite val_pow by lia. change (qpow2 (52 + -52)) with (qpow2 0).
    rewrite (qpow2_nat 0 ltac:(lia)). simpl. ring. }
  pose proof (sub_approx _ _ Vw V1 Fw F1) as Av. apply (approx_Qeq _ _ _ Ev) in Av.
  destruct (exact_step _ _ Av (repz_int (j - 2 ^ 52) (-52) ltac:(lia) ltac:(lia)))
    as (Fv & Vv & Ev').
  set (v := sub w (float_of_Z 1)) in *.
  assert (Bv : -1 <= fval v <= 1).
  { rewrite Ev'.
    assert (L : val (- 2 ^ 52) (-52) <= val (j - 2 ^ 52) (-52)) by (apply val_le; lia).
    assert (U : val (j - 2 ^ 52) (-52) <= val (2 ^ 52) (-52)) by (apply val_le; lia).
    rewrite <- val_opp, val_pow in L by lia. rewrite val_pow in U by lia.
    change (qpow2 (52 + -52)) with (qpow2 0) in L, U.
    rewrite (qpow2_nat 0 ltac:(lia)) in L, U. change (inject_Z (2 ^ 0)) with 1 in L, U. lra. }
  (* t = delay * 0.25 *)
  destruct (exact_step _ _ (of_Z_exp_approx 1 (-2)) (repz_int 1 (-2) ltac:(lia) ltac:(lia)))
    as (Fq & Vq & Eq).
  assert (Et : fval b * fval (of_Z_exp 1 (-2)) == X * (1 # 4)).
  { rewrite Eb, Eq. assert (Q4 : val 1 (-2) == 1 # 4) by (vm_compute; reflexivity).
    rewrite Q4. reflexivity. }
  pose proof (mul_approx _ _ Vb Vq Fb Fq) as At. apply (approx_Qeq _ _ _ Et) in At.
  destruct (exact_step _ _ At R1) as (Ft & Vt & Et').
  set (t := mul b (of_Z_exp 1 (-2))) in *.
  (* jitter = t * v *)
  pose proof (mul_approx _ _ Vt Vv Ft Fv) as Aj.
  destruct (approx_between _ _ (- (X * (1 # 4))) (X * (1 # 4)) Aj (repz_opp _ R1) R1)
    as (Fj & Lj & Uj).
  { rewrite Et'. nra. }
  { rewrite Et'. nra. }
  (* delay + jitter *)
  pose proof (add_approx _ _ Vb (proj1 Aj) Fb Fj) as Ad.
  destruct (approx_between _ _ (X * (3 # 4)) (X * (5 # 4)) Ad R3 R5) as (Fd & Ld & Ud).
  { rewrite Eb. lra. }
  { rewrite Eb. lra. }
  unfold with_jitter. fold t w v. auto.
Qed.

(** The base delays with [initial_delay=1.0]: exactly [2^k] for the
    exponential strategy below the overflow. *)
Lemma base_delay_exp (c : config) (k : nat) :
  initial_delay c = float_of_Z 1 -> String.eqb (backoff_strategy c) "exponential" = true ->
  (k < 1024)%nat ->
  exists b, base_delay c k = Some b /\ valid b = true /\ is_fin b = true /\
    fval b == inject_Z (2 ^ Z.of_nat k).
Proof.
  intros Hi He Hk. unfold base_delay. rewrite He, int_to_float_small by (apply pow2_small; exact Hk).
  rewrite Hi. eexists. split; [reflexivity|].
  destruct (float_of_Z_exact 1 ltac:(lia)) as (F1 & V1 & E1).
  assert (Hr : repz (val (2 ^ Z.of_nat k) 0)).
  { eapply repz_Qeq; [|apply (repz_small 1 (Z.of_nat k) 1); simpl; lia].
    rewrite <- (Z.mul_1_l (2 ^ Z.of_nat k)). rewrite <- val_shift by lia.
    rewrite Z.add_0_l. reflexivity. }
  destruct (exact_step _ _ (of_Z_exp_approx (2 ^ Z.of_nat k) 0) Hr) as (Fp & Vp & Ep).
  fold (float_of_Z (2 ^ Z.of_nat k)) in Fp, Vp, Ep.
  assert (Ev : fval (float_of_Z 1) * fval (float_of_Z (2 ^ Z.of_nat k)) == val (2 ^ Z.of_nat k) 0).
  { rewrite E1, Ep. ring. }
  pose proof (mul_approx _ _ V1 Vp F1 Fp) as A. apply (approx_Qeq _ _ _ Ev) in A.
  destruct (exact_step _ _ A Hr) as (Fb & Vb & Eb).
  split; [exact Vb|]. split; [exact Fb|]. rewrite Eb. unfold val. simpl. ring.
Qed.

(** ... and exactly [k + 1] for the linear strategy. *)
Lemma base_delay_lin (c : config) (k : nat) :
  initial_delay c = float_of_Z 1 -> String.eqb (backoff_strategy c) "exponential" = false ->
  (Z.of_nat k < 2 ^ 50)%Z ->
  exists b, base_delay c k = Some b /\ valid b = true /\ is_fin b = true /\
    fval b == inject_Z (Z.of_nat k + 1).
Proof.
  intros Hi He Hk.
  assert (E50 : (2 ^ 50 = 1125899906842624)%Z) by reflexivity.
  assert (E53 : (2 ^ 53 = 9007199254740992)%Z) by reflexivity.
  unfold base_delay. rewrite He, int_to_float_small by (unfold FLOAT_OVERFLOW; lia).
  rewrite Hi. eexists. split; [reflexivity|].
  destruct (float_of_Z_exact 1 ltac:(lia)) as (F1 & V1 & E1).
  destruct (float_of_Z_exact (Z.of_nat k + 1) ltac:(lia)) as (Fp & Vp & Ep).
  assert (Ev : fval (float_of_Z 1) * fval (float_of_Z (Z.of_nat k + 1)) == val (Z.of_nat k + 1) 0).
  { rewrite E1, Ep. unfold val. simpl. ring. }
  pose proof (mul_approx _ _ V1 Vp F1 Fp) as A. apply (approx_Qeq _ _ _ Ev) in A.
  destruct (exact_step _ _ A (repz_int (Z.of_nat k + 1) 0 ltac:(lia) ltac:(lia)))
    as (Fb & Vb & Eb).
  split; [exact Vb|]. split; [exact Fb|]. rewrite Eb. unfold val. simpl. ring.
Qed.




(** C6 (code bug). [post] makes at most [max_retries + 1] attempts, but
    with the exponential strategy and [max_retries = 1025], when every
    attempt times out, the delay before attempt 1025 computes
    [1.0 * 2 ** 1024], whose conversion to float raises [OverflowError]
    outside the [try]: the call raises instead of returning [None]. *)
Theorem post_exhaustion_overflow :
  (forall c rnd outc,
     (attempts_made (snd (post c rnd outc)) <= Z.to_nat (max_retries c + 1))%nat) /\
  fst (post (default_config 1025) (fun _ => random_float (2 ^ 52)) (fun _ => TimeoutE)) = Raised /\
  attempts_made (snd (post (default_config 1025) (fun _ => random_float (2 ^ 52))
                            (fun _ => TimeoutE))) = 1025%nat.
Proof.
  split; [|split].
  - intros c rnd outc. unfold post.
    pose proof (post_loop_attempts c rnd outc (seq 0 (Z.to_nat (max_retries c + 1)))) as H.
    rewrite length_seq in H. exact H.
  - vm_compute. reflexivity.
  - vm_compute. reflexivity.
Qed.

(** C7, counterexample.  Three draws where the result leaves the band
    [[0.75 * base, 1.25 * base]] or is not below [max_delay]:
    with the defaults, attempt 10 has base 1024.0 and is clamped to 30.0;
    with [initial_delay=2.0], attempt 1023 has base [inf], and
    [inf + inf * 0.25 * (0.5 - 1)] is NaN, which [min] returns;
    with [initial_delay = 1 + 3 * 2^-52], attempt 0 and [random()] = 0.0
    the sum [delay + jitter] rounds below [0.75 * delay]. *)
Lemma calculate_delay_out_of_band :
  (base_delay (default_config 11) 10 = Some (float_of_Z 1024) /\
   calculate_delay (default_config 11) 10 (random_float (2 ^ 52)) = Some (float_of_Z 30) /\
   fval (float_of_Z 30) < fval (float_of_Z 1024) * (3 # 4)) /\
  calculate_delay (mkConfig 1024 "exponential" (float_of_Z 2) (float_of_Z 30)) 1023
    (random_float (2 ^ 51)) = Some S754_nan /\
  (base_delay (mkConfig 1 "exponential" (S754_finite false 4503599627370499 (-52)) (float_of_Z 30)) 0
     = Some (S754_finite false 4503599627370499 (-52)) /\
   calculate_delay (mkConfig 1 "exponential" (S754_finite false 4503599627370499 (-52)) (float_of_Z 30)) 0
     (random_float 0) = Some (S754_finite false 6755399441055748 (-53)) /\
   fval (S754_finite false 6755399441055748 (-53))
     < fval (S754_finite false 4503599627370499 (-52)) * (3 # 4)).
Proof.
  split; [split; [|split]|split; [|split; [|split]]]; vm_compute; reflexivity.
Qed.

(** C7, amended. With [initial_delay=1.0], the base delay of attempt [k]
    is exactly [2^k] (exponential, [k < 1024]) or [k + 1] (linear,
    [k < 2^50]); for every draw of [random.random()] the jittered delay
    [d] is a finite double within [[0.75 * base, 1.25 * base]];
    [_calculate_delay] returns [min(d, max_delay)], which compares [<=]
    [max_delay] when [max_delay] is not NaN; and successive exponential
    bases strictly increase. *)
Theorem calculate_delay_bounds (c : config) (k : nat) (j : Z) :
  initial_delay c = float_of_Z 1 ->
  max_delay c <> S754_nan ->
  (0 <= j < 2 ^ 53)%Z ->
  (if String.eqb (backoff_strategy c) "exponential"
   then (k < 1024)%nat else (Z.of_nat k < 2 ^ 50)%Z) ->
  exists b,
    base_delay c k = Some b /\
    fval b == (if String.eqb (backoff_strategy c) "exponential"
               then inject_Z (2 ^ Z.of_nat k) else inject_Z (Z.of_nat k + 1)) /\
    is_fin (with_jitter b (random_float j)) = true /\
    fval b * (3 # 4) <= fval (with_jitter b (random_float j)) <= fval b * (5 # 4) /\
    calculate_delay c k (random_float j)
      = Some (py_min (with_jitter b (random_float j)) (max_delay c)) /\
    leb (py_min (with_jitter b (random_float j)) (max_delay c)) (max_delay c) = true /\
    (String.eqb (backoff_strategy c) "exponential" = true -> (S k < 1024)%nat ->
       exists b', base_delay c (S k) = Some b' /\ fval b < fval b').
Proof.
  intros Hi Hm Hj Hk.
  assert (Hfin : forall b X, base_delay c k = Some b -> valid b = true -> is_fin b = true ->
            fval b == X -> 0 <= X ->
            repz (X * (1 # 4)) -> repz (X * (3 # 4)) -> repz (X * (5 # 4)) ->
            is_fin (with_jitter b (random_float j)) = true /\
            fval b * (3 # 4) <= fval (with_jitter b (random_float j)) <= fval b * (5 # 4) /\
            calculate_delay c k (random_float j)
              = Some (py_min (with_jitter b (random_float j)) (max_delay c)) /\
            leb (py_min (with_jitter b (random_float j)) (max_delay c)) (max_delay c) = true).
  { intros b X Eb Vb Fb Xb HX R1 R3 R5.
    destruct (jitter_core b X j Vb Fb Xb HX R1 R3 R5 Hj) as (Fd & Ld & Ud).
    split; [exact Fd|]. split; [rewrite Xb; split; assumption|].
    split; [unfold calculate_delay; rewrite Eb; reflexivity|].
    apply leb_min; [|exact Hm].
    destruct (with_jitter b (random_float j)); simpl in Fd; congruence. }
  destruct (String.eqb (backoff_strategy c) "exponential") eqn:Es.
  - destruct (base_delay_exp c k Hi Es Hk) as (b & Eb & Vb & Fb & Xb).
    exists b. split; [exact Eb|]. split; [exact Xb|].
    assert (HQ : forall a, inject_Z (2 ^ Z.of_nat k) * (a # 4) == val a (Z.of_nat k - 2)).
    { intro a. rewrite <- (Z.mul_1_l a) at 2. rewrite <- val_quarter. unfold val.
      rewrite (qpow2_nat (Z.of_nat k) ltac:(lia)). ring. }
    destruct (Hfin b (inject_Z (2 ^ Z.of_nat k)) Eb Vb Fb Xb) as (F & B & C & L).
    + unfold Qle. simpl. rewrite Z.mul_1_r. apply Z.pow_nonneg. lia.
    + eapply repz_Qeq; [symmetry; apply HQ|apply (repz_small _ _ 3); simpl; lia].
    + eapply repz_Qeq; [symmetry; apply HQ|apply (repz_small _ _ 3); simpl; lia].
    + eapply repz_Qeq; [symmetry; apply HQ|apply (repz_small _ _ 3); simpl; lia].
    + split; [exact F|]. split; [exact B|]. split; [exact C|]. split; [exact L|].
      intros _ Hk'. destruct (base_delay_exp c (S k) Hi Es Hk') as (b' & Eb' & _ & _ & Xb').
      exists b'. split; [exact Eb'|]. rewrite Xb, Xb'. rewrite <- Zlt_Qlt.
      rewrite Nat2Z.inj_succ, Z.pow_succ_r by lia.
      assert (0 < 2 ^ Z.of_nat k)%Z by (apply Z.pow_pos_nonneg; lia). lia.
  - destruct (base_delay_lin c k Hi Es Hk) as (b & Eb & Vb & Fb & Xb).
    exists b. split; [exact Eb|]. split; [exact Xb|].
    assert (E50 : (2 ^ 50 = 1125899906842624)%Z) by reflexivity.
    assert (E53 : (2 ^ 53 = 9007199254740992)%Z) by reflexivity.
    assert (HQ : forall a, inject_Z (Z.of_nat k + 1) * (a # 4) == val ((Z.of_nat k + 1) * a) (-2)).
    { intro a. transitivity (val (Z.of_nat k + 1) 0 * (a # 4)).
      - unfold val. rewrite (qpow2_nat 0 ltac:(lia)). change (inject_Z (2 ^ 0)) with 1. ring.
      - rewrite val_quarter. reflexivity. }
    destruct (Hfin b (inject_Z (Z.of_nat k + 1)) Eb Vb Fb Xb) as (F & B & C & L).
    + unfold Qle. simpl. lia.
    + eapply repz_Qeq; [symmetry; apply HQ|apply repz_int; lia].
    + eapply repz_Qeq; [symmetry; apply HQ|apply repz_int; lia].
    + eapply repz_Qeq; [symmetry; apply HQ|apply repz_int; lia].
    + split; [exact F|]. split; [exact B|]. split; [exact C|]. split; [exact L|].
      intros H. discriminate H.
Qed.

Lemma calculate_delay_bounds_witness :
  exists b,
    base_delay (default_config 3) 2 = Some b /\
    fval b == (if String.eqb (backoff_strategy (default_config 3)) "exponential"
               then inject_Z (2 ^ Z.of_nat 2) else inject_Z (Z.of_nat 2 + 1)) /\
    is_fin (with_jitter b (random_float (2 ^ 51))) = true /\
    fval b * (3 # 4) <= fval (with_jitter b (random_float (2 ^ 51))) <= fval b * (5 # 4) /\
    calculate_delay (default_config 3) 2 (random_float (2 ^ 51))
      = Some (py_min (with_jitter b (random_float (2 ^ 51))) (max_delay (default_config 3))) /\
    leb (py_min (with_jitter b (random_float (2 ^ 51))) (max_delay (default_config 3)))
        (max_delay (default_config 3)) = true /\
    (String.eqb (backoff_strategy (default_config 3)) "exponential" = true -> (S 2 < 1024)%nat ->
       exists b', base_delay (default_config 3) (S 2) = Some b' /\ fval b < fval b').
Proof.
  apply (calculate_delay_bounds (default_config 3) 2 (2 ^ 51)).
  - reflexivity.
  - vm_compute. discriminate.
  - split; [vm_compute; discriminate|reflexivity].
  - simpl. lia.
Defined.

End Retry.

(** ** [CircuitBreaker] (src/agents/player_P02/resilience.py)

    [datetime.utcnow()] is an explicit argument [now], in seconds, and
    [(now - last).total_seconds()] is [now - last].  A [datetime] is
    always truthy, so [if self.last_failure_time:] only tests for
    [None]. *)
Module Breaker.

Local Open Scope Q_scope.

Inductive cstate := CLOSED | OPEN | HALF_OPEN.

Record breaker := mkBreaker {
  failure_threshold : Z;
  recovery_timeout : Q;
  state : cstate;
  failure_count : Z;
  last_failure_time : option Q
}.

Definition new_breaker (failure_threshold : Z) (recovery_timeout : Q) : breaker :=
  mkBreaker failure_threshold recovery_timeout CLOSED 0 None.

Definition set_state (b : breaker) (s : cstate) : breaker :=
  mkBreaker (failure_threshold b) (recovery_timeout b) s (failure_count b)
    (last_failure_time b).

Definition set_failure_count (b : breaker) (n : Z) : breaker :=
  mkBreaker (failure_threshold b) (recovery_timeout b) (state b) n
    (last_failure_time b).

(** [can_execute] returns its answer and the breaker after the call. *)
Definition can_execute (b : breaker) (now : Q) : bool * breaker :=
  match state b with
  | CLOSED => (true, b)
  | OPEN =>
      match last_failure_time b with
      | Some t =>
          if Qle_bool (recovery_timeout b) (now - t)
          then (true, set_state b HALF_OPEN)
          else (false, b)
      | None => (false, b)
      end
  | HALF_OPEN => (true, b)
  end.

Definition record_success (b : breaker) : breaker :=
  match state b with
  | HALF_OPEN => set_failure_count (set_state b CLOSED) 0
  | CLOSED => set_failure_count b 0
  | OPEN => b
  end.

Definition record_failure (b : breaker) (now : Q) : breaker :=
  let b := mkBreaker (failure_threshold b) (recovery_timeout b) (state b)
             (failure_count b + 1)%Z (Some now) in
  match state b with
  | HALF_OPEN => set_state b OPEN
  | CLOSED =>
      if (failure_threshold b <=? failure_count b)%Z then set_state b OPEN else b
  | OPEN => b
  end.

(** One call of one of the three methods. *)
Inductive op :=
| CanExecute (now : Q)
| Success
| Failure (now : Q).

Definition step (o : op) (b : breaker) : breaker :=
  match o with
  | CanExecute now => snd (can_execute b now)
  | Success => record_success b
  | Failure now => record_failure b now
  end.

Lemma can_execute_true_state (b : breaker) (now : Q) :
  fst (can_execute b now) = true ->
  state (snd (can_execute b now)) = CLOSED \/ state (snd (can_execute b now)) = HALF_OPEN.
Proof.
  unfold can_execute. destruct (state b) eqn:E; simpl; auto.
  destruct (last_failure_time b) as [t|]; simpl; [|discriminate].
  destruct (Qle_bool (recovery_timeout b) (now - t)); simpl; auto. discriminate.
Qed.

Lemma Qle_bool_false (x y : Q) : y < x -> Qle_bool x y = false.
Proof.
  intro H. destruct (Qle_bool x y) eqn:E; [|reflexivity].
  apply Qle_bool_iff in E. exfalso. apply (Qlt_not_le _ _ H E).
Qed.

(** C3. The transition table from a fresh breaker with threshold 3, and
    the reset of the counter on every transition into [CLOSED]. *)
Theorem breaker_transition_table (rt t1 t2 t3 : Q) :
  let b2 := record_failure (record_failure (new_breaker 3 rt) t1) t2 in
  let b3 := record_failure b2 t3 in
  state b2 = CLOSED /\
  state b3 = OPEN /\
  (forall now, now - t3 < rt -> can_execute b3 now = (false, b3)) /\
  (forall now, rt <= now - t3 ->
     fst (can_execute b3 now) = true /\ state (snd (can_execute b3 now)) = HALF_OPEN) /\
  (forall b, state b = HALF_OPEN ->
     state (record_success b) = CLOSED /\ failure_count (record_success b) = 0%Z) /\
  (forall b now, state b = HALF_OPEN -> state (record_failure b now) = OPEN) /\
  (forall o b, state b <> CLOSED -> state (step o b) = CLOSED ->
     failure_count (step o b) = 0%Z).
Proof.
  intros b2 b3.
  split; [reflexivity|]. split; [reflexivity|].
  split.
  - intros now Hnow. unfold can_execute. simpl.
    rewrite Qle_bool_false by exact Hnow. reflexivity.
  - split.
    + intros now Hnow. unfold can_execute. simpl.
      apply Qle_bool_iff in Hnow. rewrite Hnow. split; reflexivity.
    + split; [|split].
      * intros b Hb. unfold record_success. rewrite Hb. split; reflexivity.
      * intros b now Hb. unfold record_failure. simpl. rewrite Hb. reflexivity.
      * intros o b Hb Hc. destruct o as [now| |now]; simpl in *.
        -- exfalso. unfold can_execute in Hc.
           destruct (state b) eqn:E; simpl in Hc; [congruence| |congruence].
           destruct (last_failure_time b) as [t|]; [|simpl in Hc; congruence].
           destruct (Qle_bool (recovery_timeout b) (now - t)); simpl in Hc; congruence.
        -- unfold record_success in *. destruct (state b) eqn:E; simpl in *; congruence.
        -- exfalso. unfold record_failure in Hc. simpl in Hc.
           destruct (state b) eqn:E; simpl in Hc; try congruence.
Qed.

Lemma breaker_transition_table_witness :
  let b3 := record_failure (record_failure (record_failure (new_breaker 3 30) 0) 1) 2 in
  can_execute b3 10 = (false, b3) /\
  fst (can_execute b3 32) = true /\ state (snd (can_execute b3 32)) = HALF_OPEN /\
  failure_count (step Success (snd (can_execute b3 32))) = 0%Z.
Proof.
  destruct (breaker_transition_table 30 0 1 2) as (_ & H3 & Hlt & Hge & _ & _ & Hinv).
  cbv zeta. split; [apply Hlt; vm_compute; reflexivity|].
  destruct (Hge 32) as [Hok Hhalf]; [vm_compute; discriminate|].
  split; [exact Hok|]. split; [exact Hhalf|].
  apply Hinv; [rewrite Hhalf; discriminate|].
  vm_compute. reflexivity.
Defined.

(** C8 (code bug). Once the recovery timeout has elapsed, the first
    [can_execute] moves an open breaker to [HALF_OPEN] and answers [True];
    every further [can_execute], before any outcome is recorded, answers
    [True] again and leaves the breaker unchanged: the half-open state
    admits any number of trial calls, not one. *)
Theorem half_open_admits_every_call (b : breaker) (t now : Q) :
  state b = OPEN -> last_failure_time b = Some t -> recovery_timeout b <= now - t ->
  let b1 := snd (can_execute b now) in
  fst (can_execute b now) = true /\ state b1 = HALF_OPEN /\
  (forall now', can_execute b1 now' = (true, b1)).
Proof.
  intros Hs Ht Hr b1.
  unfold b1, can_execute. rewrite Hs, Ht.
  apply Qle_bool_iff in Hr. rewrite Hr. simpl.
  split; [reflexivity|]. split; reflexivity.
Qed.

Lemma half_open_admits_every_call_witness :
  let b := record_failure (record_failure (record_failure (new_breaker 3 30) 0) 1) 2 in
  let b1 := snd (can_execute b 40) in
  fst (can_execute b 40) = true /\ state b1 = HALF_OPEN /\
  (forall now', can_execute b1 now' = (true, b1)).
Proof.
  apply (half_open_admits_every_call _ 2 40).
  - reflexivity.
  - reflexivity.
  - vm_compute. discriminate.
Defined.

End Breaker.

(** ** [ResilientClient.post] (src/agents/player_P02/resilience.py)

    The inner [RetryClient.post] is the [Retry.post_result] it produces;
    [Raised] is an exception escaping it.  An [httpx.Response] defines
    neither [__bool__] nor [__len__], so [if response:] is true for every
    response, whatever its status code.  [now] is the time of the
    [can_execute] check and [tfail] the time a failure is recorded. *)
Module Resilient.

Import Retry Breaker.

Definition resilient_post (b : breaker) (now tfail : Q) (res : post_result)
    : option response * breaker :=
  let (ok, b1) := can_execute b now in
  if negb ok then (None, b1)
  else
    match res with
    | Returned (Some r) => (Some r, record_success b1)
    | Returned None => (None, record_failure b1 tfail)
    | Raised => (None, record_failure b1 tfail)
    end.

Lemma record_success_permitted (b : breaker) :
  state b = CLOSED \/ state b = HALF_OPEN ->
  state (record_success b) = CLOSED /\ failure_count (record_success b) = 0%Z.
Proof.
  unfold record_success. intros [H|H]; rewrite H; split; simpl; try exact H; reflexivity.
Qed.

(** C10. When the breaker permits the call, a response of any status code
    from the retrying send records a success, which leaves the breaker
    [CLOSED] with failure count 0; no response and a raised exception
    record a failure. *)
Theorem resilient_post_outcome (b : breaker) (now tfail : Q) (c : config)
    (rnd : nat -> spec_float) (outc : nat -> attempt_outcome) :
  fst (can_execute b now) = true ->
  let b1 := snd (can_execute b now) in
  (forall r, fst (post c rnd outc) = Returned (Some r) ->
     resilient_post b now tfail (fst (post c rnd outc)) = (Some r, record_success b1) /\
     state (record_success b1) = CLOSED /\ failure_count (record_success b1) = 0%Z) /\
  (fst (post c rnd outc) = Returned None \/ fst (post c rnd outc) = Raised ->
     resilient_post b now tfail (fst (post c rnd outc)) = (None, record_failure b1 tfail)).
Proof.
  intros Hok b1.
  pose proof (can_execute_true_state b now Hok) as Hst.
  unfold resilient_post.
  destruct (can_execute b now) as [ok b1'] eqn:E. simpl in Hok, Hst. subst ok.
  unfold b1. simpl.
  split.
  - intros r Hr. rewrite Hr. split; [reflexivity|].
    apply record_success_permitted. exact Hst.
  - intros [H|H]; rewrite H; reflexivity.
Qed.

Lemma resilient_post_outcome_witness :
  resilient_post (new_breaker 5 30) 0 0
    (fst (post (default_config 3) (fun _ => random_float (2 ^ 52))
               (fun _ => Got {| status_code := 500 |})))
  = (Some {| status_code := 500 |}, record_success (new_breaker 5 30)) /\
  failure_count (record_success (new_breaker 5 30)) = 0%Z.
Proof.
  destruct (resilient_post_outcome (new_breaker 5 30) 0 0 (default_config 3)
              (fun _ => random_float (2 ^ 52)) (fun _ => Got {| status_code := 500 |}) eq_refl) as [Hs _].
  destruct (Hs {| status_code := 500 |} eq_refl) as (H1 & _ & H3).
  split; [exact H1 | exact H3].
Defined.

End Resilient.

(* ================================================================== *)
(** ** Further properties of [CircuitBreaker] and [ResilientClient] *)
(* ================================================================== *)

Module BreakerProps.
Import Retry Breaker Resilient.
Local Open Scope Q_scope.

Definition last_time (ts : list Q) : option Q :=
  match rev ts with [] => None | t :: _ => Some t end.

Lemma failures_from_new (k : Z) (rt : Q) (ts : list Q) :
  let b := fold_left (fun b t => record_failure b t) ts (new_breaker k rt) in
  failure_threshold b = k /\ recovery_timeout b = rt /\
  failure_count b = Z.of_nat (List.length ts) /\ last_failure_time b = last_time ts /\
  (state b = OPEN \/ state b = CLOSED) /\
  (state b = OPEN <-> ts <> [] /\ (k <= Z.of_nat (List.length ts))%Z).
Proof.
  induction ts as [|t ts IH] using rev_ind; simpl.
  - repeat split; auto; intros; try discriminate.
    destruct H as [H _]. exfalso. apply H. reflexivity.
  - rewrite fold_left_app. simpl.
    set (b := fold_left (fun b t => record_failure b t) ts (new_breaker k rt)) in *.
    destruct IH as (Hk & Hr & Hc & Hl & Hs & Ho).
    unfold last_time. rewrite rev_app_distr. simpl.
    rewrite length_app. simpl.
    unfold record_failure. simpl. rewrite Hk, Hr, Hc.
    destruct (state b) eqn:Es; simpl; [| |destruct Hs; discriminate].
    + destruct (Z.leb_spec k (Z.of_nat (List.length ts) + 1)) as [Hle|Hgt]; simpl;
        repeat split; auto; try lia.
      all: intros; try (let E := fresh in intro E; apply app_eq_nil in E;
                        destruct E as [_ E]; discriminate);
        try match goal with H : _ /\ _ |- _ => destruct H end; try discriminate; try lia.
    + destruct Ho as [Ho _]. destruct (Ho eq_refl) as [_ Hle].
      repeat split; auto; try lia.
      all: intros; try (let E := fresh in intro E; apply app_eq_nil in E;
                        destruct E as [_ E]; discriminate); try lia.
Qed.

(** From a new breaker, [n] consecutive [record_failure] calls (at times
    [ts]) count [n] failures, keep the time of the last one, and leave the
    breaker [OPEN] exactly when [n >= 1] and [n >= failure_threshold]
    (the breaker opens at the threshold-th failure and stays open), else
    [CLOSED]; the breaker is never [HALF_OPEN] on this path. *)
Theorem consecutive_failures_open (k : Z) (rt : Q) (ts : list Q) :
  let b := fold_left (fun b t => record_failure b t) ts (new_breaker k rt) in
  failure_count b = Z.of_nat (List.length ts) /\ last_failure_time b = last_time ts /\
  (state b = OPEN \/ state b = CLOSED) /\
  (state b = OPEN <-> ts <> [] /\ (k <= Z.of_nat (List.length ts))%Z).
Proof.
  intros b. destruct (failures_from_new k rt ts) as (_ & _ & H). exact H.
Qed.

(** Whatever sequence of [can_execute], [record_success] and
    [record_failure] calls a breaker sees from its creation: the failure
    count is never negative; a breaker that is not [CLOSED] has a recorded
    failure time (so an [OPEN] breaker can always recover); with
    [failure_threshold >= 1] a [CLOSED] breaker has fewer failures than the
    threshold; threshold and timeout never change. *)
Theorem breaker_reachable_invariant (k : Z) (rt : Q) (ops : list op) :
  let b := fold_left (fun b o => step o b) ops (new_breaker k rt) in
  failure_threshold b = k /\ recovery_timeout b = rt /\
  (0 <= failure_count b)%Z /\
  (state b <> CLOSED -> last_failure_time b <> None) /\
  ((1 <= k)%Z -> state b = CLOSED -> (failure_count b < k)%Z).
Proof.
  induction ops as [|o ops IH] using rev_ind; simpl.
  - repeat split; try lia; intros H; contradiction.
  - rewrite fold_left_app. simpl.
    set (b := fold_left (fun b o => step o b) ops (new_breaker k rt)) in *.
    destruct IH as (Hk & Hr & Hc & Hl & Hcl).
    destruct o as [now| |now]; simpl.
    + unfold can_execute.
      destruct (state b) eqn:Es;
        [|destruct (last_failure_time b) as [t|] eqn:Et;
          [destruct (Qle_bool (recovery_timeout b) (now - t))|]|].
      all: simpl; repeat split; intros; rewrite ?Es, ?Et in *; simpl in *; auto;
        try congruence; try (exfalso; apply Hl; [discriminate|reflexivity]).
    + unfold record_success.
      destruct (state b) eqn:Es.
      all: simpl; repeat split; intros; rewrite ?Es in *; simpl in *; auto;
        try congruence; try lia.
    + unfold record_failure. simpl.
      destruct (state b) eqn:Es;
        [destruct (Z.leb_spec (failure_threshold b) (failure_count b + 1)) as [Hle|Hgt]| |].
      all: simpl; repeat split; intros; rewrite ?Es in *; simpl in *; auto;
        try congruence; try lia.
Qed.

(** [ResilientClient.post] calls on the same client from its creation,
    each permitted and each ending without a response or with an exception:
    the [(now, tfail, result)] of every call. *)
Definition run_calls (b : breaker) (calls : list (Q * Q * post_result)) : breaker :=
  fold_left (fun b c => snd (resilient_post b (fst (fst c)) (snd (fst c)) (snd c))) calls b.

Definition failed (r : post_result) : bool :=
  match r with Returned (Some _) => false | _ => true end.

Lemma resilient_post_closed_fail b now tf res :
  state b = CLOSED -> failed res = true ->
  resilient_post b now tf res = (None, record_failure b tf).
Proof.
  intros Hs Hf. unfold resilient_post, can_execute. rewrite Hs. simpl.
  destruct res as [[r|]|]; simpl in *; congruence.
Qed.

Lemma run_calls_failures (k : Z) (rt : Q) (calls : list (Q * Q * post_result)) :
  (forall c, In c calls -> failed (snd c) = true) ->
  (Z.of_nat (List.length calls) <= k)%Z ->
  run_calls (new_breaker k rt) calls =
  fold_left (fun b t => record_failure b t) (map (fun c => snd (fst c)) calls) (new_breaker k rt).
Proof.
  induction calls as [|c calls IH] using rev_ind; intros Hf Hlen; [reflexivity|].
  unfold run_calls in *. rewrite map_app, !fold_left_app. simpl.
  rewrite length_app in Hlen. simpl in Hlen.
  rewrite IH; [| intros c' Hc'; apply Hf; apply in_or_app; left; exact Hc' | lia].
  rewrite resilient_post_closed_fail; [reflexivity| |apply Hf; apply in_or_app; right; left; reflexivity].
  destruct (failures_from_new k rt (map (fun c => snd (fst c)) calls)) as (_ & _ & _ & _ & Hs & Ho).
  destruct Hs as [Hs|Hs]; [|exact Hs].
  exfalso. apply Ho in Hs as [_ Hle]. rewrite length_map in Hle. lia.
Qed.

(** A [ResilientClient] whose breaker has [failure_threshold = k >= 1]:
    [k] calls that each end without a response (or with an exception)
    leave the breaker [OPEN] with the last call's failure time [tlast]; a
    further call made less than [recovery_timeout] seconds after [tlast] is
    rejected with [None] and changes nothing, whatever the retrying send
    would have returned. *)
Theorem resilient_opens_after_threshold (k : Z) (rt : Q) (calls : list (Q * Q * post_result))
    (tlast : Q) :
  (1 <= k)%Z -> Z.of_nat (List.length calls) = k ->
  (forall c, In c calls -> failed (snd c) = true) ->
  last_time (map (fun c => snd (fst c)) calls) = Some tlast ->
  let b := run_calls (new_breaker k rt) calls in
  state b = OPEN /\ last_failure_time b = Some tlast /\
  (forall now tf res, now - tlast < rt -> resilient_post b now tf res = (None, b)).
Proof.
  intros Hk Hlen Hf Hl b.
  unfold b. rewrite run_calls_failures by (auto; lia).
  destruct (failures_from_new k rt (map (fun c => snd (fst c)) calls))
    as (_ & Hr & _ & Hlt & _ & Ho).
  set (b' := fold_left _ _ _) in *.
  assert (Hs : state b' = OPEN).
  { apply Ho. rewrite length_map. split; [|lia].
    intros E. rewrite E in Hl. discriminate. }
  split; [exact Hs|]. rewrite Hlt, Hl. split; [reflexivity|].
  intros now tf res Hnow. unfold resilient_post, can_execute. rewrite Hs, Hlt, Hl, Hr.
  rewrite Qle_bool_false by exact Hnow. reflexivity.
Qed.

Lemma resilient_opens_after_threshold_witness :
  let b := run_calls (new_breaker 2 30) [(0, 1, Returned None); (2, 3, Raised)] in
  state b = OPEN /\ last_failure_time b = Some 3 /\
  (forall now tf res, now - 3 < 30 -> resilient_post b now tf res = (None, b)).
Proof.
  apply resilient_opens_after_threshold.
  - lia.
  - reflexivity.
  - intros c Hc. simpl in Hc. destruct Hc as [<-|[<-|[]]]; reflexivity.
  - reflexivity.
Defined.

End BreakerProps.

(* ================================================================== *)
(** ** [LeagueHandlers.handle_start_league]
       (src/agents/league_manager/handlers.py) *)
(* ================================================================== *)

Module League.
Import Scheduler Rounds Dict Validate.

(** The counts [handle_start_league] reports: [num_players],
    [total_rounds], and the number of matches listed in
    [schedule_preview] (the [total_matches] it logs).  [None] is the
    [ValueError] raised for fewer than two players.  The standings reset
    and the envelope's other fields are not modelled. *)
Definition handle_start_league {V} (registered_players : dict V) : option (Z * Z * Z) :=
  let player_ids := map fst registered_players in
  if List.length player_ids <? 2 then None
  else
    let schedule := create_schedule player_ids in
    Some (Z.of_nat (List.length player_ids), Z.of_nat (List.length schedule),
          Z.of_nat (list_sum (map (fun round_matches => List.length round_matches) schedule))).

Lemma schedule_rounds_count (player_ids : list string) :
  2 <= List.length player_ids ->
  Z.of_nat (List.length (create_schedule player_ids)) =
  get_num_rounds (Z.of_nat (List.length player_ids)).
Proof.
  intros H. unfold create_schedule.
  destruct (Nat.ltb_spec (List.length player_ids) 2); [lia|].
  rewrite rounds_length. unfold get_num_rounds.
  destruct (Nat.odd (List.length player_ids)) eqn:Eo.
  - apply Nat.odd_spec in Eo as [p Ep]. rewrite Ep.
    destruct (Z.eqb_spec (Z.of_nat (2 * p + 1)%nat mod 2)%Z 0%Z); Z.div_mod_to_equations; lia.
  - assert (Ee : Nat.even (List.length player_ids) = true)
      by (rewrite <- Nat.negb_odd, Eo; reflexivity).
    apply Nat.even_spec in Ee as [p Ep]. rewrite Ep.
    destruct (Z.eqb_spec (Z.of_nat (2 * p)%nat mod 2)%Z 0%Z); Z.div_mod_to_equations; lia.
Qed.

(** Starting a league with the registered players (distinct dictionary
    keys, none of them ["BYE"], as the generated ids [P01], [P02], ...
    are): fewer than two players raise [ValueError]; otherwise the league
    has [get_num_rounds(n)] rounds and its schedule preview lists
    [get_total_matches(n)] = n(n-1)/2 matches. *)
Theorem start_league_counts {V} (registered_players : dict V) :
  NoDup (map fst registered_players) -> ~ In "BYE" (map fst registered_players) ->
  let n := Z.of_nat (List.length registered_players) in
  (List.length registered_players < 2 -> handle_start_league registered_players = None) /\
  (2 <= List.length registered_players ->
     handle_start_league registered_players = Some (n, get_num_rounds n, get_total_matches n)).
Proof.
  intros Hnd Hb n. unfold handle_start_league. rewrite length_map.
  split; intros H.
  - apply Nat.ltb_lt in H. rewrite H. reflexivity.
  - destruct (Nat.ltb_spec (List.length registered_players) 2); [lia|].
    assert (H2 : 2 <= List.length (map fst registered_players)) by (rewrite length_map; exact H).
    rewrite schedule_rounds_count by exact H2. rewrite length_map.
    rewrite <- length_concat. fold (all_pairings (map fst registered_players)).
    rewrite pairings_length by assumption. rewrite length_map.
    unfold n, get_total_matches.
    rewrite Nat2Z.inj_div, Nat2Z.inj_mul, Nat2Z.inj_sub by lia. reflexivity.
Qed.

Lemma start_league_counts_witness :
  handle_start_league [("P01", tt); ("P02", tt); ("P03", tt)] =
  Some (3%Z, get_num_rounds 3%Z, get_total_matches 3%Z).
Proof.
  apply (proj2 (start_league_counts [("P01", tt); ("P02", tt); ("P03", tt)]
                  ltac:(simpl; repeat constructor; simpl; intuition discriminate)
                  ltac:(simpl; intuition discriminate))).
  simpl. lia.
Defined.

End League.
